(** * moon.py: the gradient-text and box-drawing engine ([MoonUI])

    A shallow embedding of the class [MoonUI] of [src/moon.py] and the
    properties of its rendering functions.

    - A Python [str] is a sequence of Unicode code points; [len] counts code
      points.  It is modelled as a list of code points.
    - A Python [float] is an IEEE 754 binary64 number.  It is modelled by
      [spec_float] and the operations of the standard library's [SpecFloat]
      at precision 53 and maximal exponent 1024 (round to nearest, ties to
      even).
    - A Python exception is modelled by the error monad [res]. *)

From Stdlib Require Import String Ascii.
From Stdlib Require Import ZArith NArith List Bool Lia.
From Stdlib Require Import Decimal DecimalString.
From Stdlib Require Import SpecFloat.
Import ListNotations.

Open Scope Z_scope.

(* ================================================================= *)
(** ** Exceptions *)

(** The exception classes the modelled code can meet.  [KeyboardInterrupt]
    and [SystemExit] derive from [BaseException] only; the others derive from
    [Exception]. *)
Inductive exn : Type :=
| OSError
| AttributeError
| ValueError
| OverflowError
| ZeroDivisionError
| KeyboardInterrupt
| SystemExit.

(** [isinstance(e, Exception)] *)
Definition is_Exception (e : exn) : bool :=
  match e with
  | KeyboardInterrupt | SystemExit => false
  | _ => true
  end.

Inductive res (A : Type) : Type :=
| Ok (a : A)
| Raise (e : exn).
Arguments Ok {A} a.
Arguments Raise {A} e.

Definition bind {A B : Type} (m : res A) (k : A -> res B) : res B :=
  match m with
  | Ok a => k a
  | Raise e => Raise e
  end.

Notation "x <- m ;; k" := (bind m (fun x => k))
  (at level 61, m at next level, right associativity).

(* ================================================================= *)
(** ** Strings *)

Definition codepoint := N.
Definition str := list codepoint.

(** An ASCII literal as a [str]. *)
Definition lit (s : string) : str := map N_of_ascii (list_ascii_of_string s).

Definition ESC : codepoint := 27%N.        (* "\033" *)
Definition LBRACKET : codepoint := 91%N.   (* "[" *)
Definition SEMI : codepoint := 59%N.       (* ";" *)
Definition LOWER_M : codepoint := 109%N.   (* "m" *)
Definition SPACE : codepoint := 32%N.      (* " " *)

(** The box-drawing glyphs of the source. *)
Definition BOX_TL : codepoint := 9484%N.   (* U+250C *)
Definition BOX_TR : codepoint := 9488%N.   (* U+2510 *)
Definition BOX_ML : codepoint := 9500%N.   (* U+251C *)
Definition BOX_MR : codepoint := 9508%N.   (* U+2524 *)
Definition BOX_BL : codepoint := 9492%N.   (* U+2514 *)
Definition BOX_BR : codepoint := 9496%N.   (* U+2518 *)
Definition BOX_H : codepoint := 9472%N.    (* U+2500 *)
Definition BOX_V : codepoint := 9474%N.    (* U+2502 *)

(** [len(s)] *)
Definition len (s : str) : Z := Z.of_nat (List.length s).

(** [s * n] for a count that fits an index: a non-positive count gives the
    empty string.  It is used where the count is clamped at 0 by the caller
    ([max(..., 0)]) or is half the difference of a terminal width and a
    length; [box_line], whose count is the caller's, uses [str_mul_any]. *)
Definition str_mul (s : str) (n : Z) : str :=
  if n <=? 0 then [] else List.concat (repeat s (Z.to_nat n)).

(** [s * n] where the caller hands in the count and nothing clamps it: the
    count is converted to an index first, and a count below [-2^63] raises
    [OverflowError].  (A count above [2^63 - 1] raises too; a string of that
    many characters cannot exist, and the model does not single it out.) *)
Definition str_mul_any (s : str) (n : Z) : res str :=
  if n <? - 2 ^ 63 then Raise OverflowError else Ok (str_mul s n).

(** [f"{z}"] for an [int]: decimal digits, with a minus sign when negative. *)
Definition format_int (z : Z) : str := lit (NilZero.string_of_int (Z.to_int z)).

(* ================================================================= *)
(** ** The regular expression [\033\[[0-9;]*m] and [re.sub] with it *)

(** The class [[0-9;]]. *)
Definition is_param (c : codepoint) : bool :=
  ((48 <=? c)%N && (c <=? 57)%N) || (c =? SEMI)%N.

(** [[0-9;]*m] matched at the head of [l]: the remainder after the match.
    The star is greedy, and [m] is not in the class, so no shorter run of the
    class can be followed by [m]: backtracking finds nothing more. *)
Fixpoint match_params (l : str) : option str :=
  match l with
  | [] => None
  | c :: rest =>
      if is_param c then match_params rest
      else if (c =? LOWER_M)%N then Some rest
      else None
  end.

(** The whole pattern matched at the head of [l]. *)
Definition match_csi (l : str) : option str :=
  match l with
  | c1 :: c2 :: rest =>
      if ((c1 =? ESC)%N && (c2 =? LBRACKET)%N)%bool then match_params rest
      else None
  | _ => None
  end.

(** [re.sub(pattern, '', l)]: scan from the left; where the pattern matches,
    drop the match and go on after it; elsewhere keep the character and go on
    at the next one.  [fuel] bounds the number of steps. *)
Fixpoint sub_csi (fuel : nat) (l : str) : str :=
  match fuel with
  | O => l
  | S fuel' =>
      match l with
      | [] => []
      | c :: rest =>
          match match_csi l with
          | Some rest' => sub_csi fuel' rest'
          | None => c :: sub_csi fuel' rest
          end
      end
  end.

(** [re.sub(r'\033\[[0-9;]*m', '', text)]: one step per character is enough. *)
Definition strip (text : str) : str := sub_csi (List.length text) text.

(* ================================================================= *)
(** ** Floating point *)

Definition float := spec_float.
Definition prec : Z := 53.
Definition emax : Z := 1024.

Definition fadd : float -> float -> float := SFadd prec emax.
Definition fmul : float -> float -> float := SFmul prec emax.
Definition fdiv : float -> float -> float := SFdiv prec emax.

(** The literal [0.5]. *)
Definition half : float := S754_finite false 4503599627370496 (-53).

(** An [int] operand of a mixed [int]/[float] operation is converted to the
    nearest [float]; the conversion raises [OverflowError] when the integer is
    too large. *)
Definition float_of_int (z : Z) : res float :=
  match binary_normalize prec emax z 0 false with
  | S754_infinity _ => Raise OverflowError
  | f => Ok f
  end.

(** An integer as an exact, unnormalised floating-point datum. *)
Definition exact_int (z : Z) : float :=
  match z with
  | Z0 => S754_zero false
  | Zpos p => S754_finite false p 0
  | Zneg p => S754_finite true p 0
  end.

(** [a / b] on two [int]s: the [float] nearest to the quotient. *)
Definition int_true_div (a b : Z) : res float :=
  if b =? 0 then Raise ZeroDivisionError
  else match fdiv (exact_int a) (exact_int b) with
       | S754_infinity _ => Raise OverflowError
       | f => Ok f
       end.

(** [int * float] and [int + float] *)
Definition int_mul_float (z : Z) (x : float) : res float :=
  f <- float_of_int z ;; Ok (fmul f x).

Definition int_add_float (z : Z) (x : float) : res float :=
  f <- float_of_int z ;; Ok (fadd f x).

(** [int(x)]: truncation toward zero. *)
Definition int_of_float (x : float) : res Z :=
  match x with
  | S754_zero _ => Ok 0
  | S754_finite s m e => Ok (cond_Zopp s (Z.shiftl (Zpos m) e))
  | S754_infinity _ => Raise OverflowError
  | S754_nan => Raise ValueError
  end.

(* ================================================================= *)
(** ** [class MoonUI] *)

Definition color : Type := Z * Z * Z.

Definition red (c : color) : Z := fst (fst c).      (* c[0] *)
Definition green (c : color) : Z := snd (fst c).    (* c[1] *)
Definition blue (c : color) : Z := snd c.           (* c[2] *)

Record MoonUI : Type := {
  color_start : color;
  color_end : color;
  alt_start : color;
  alt_end : color
}.

(** [MoonUI()] *)
Definition moon_ui : MoonUI := {|
  color_start := (80, 130, 255);
  color_end := (255, 100, 180);
  alt_start := (100, 160, 255);
  alt_end := (255, 130, 200)
|}.

(** [int(s + (e - s) * t)] *)
Definition lerp (s e : Z) (t : float) : res Z :=
  p <- int_mul_float (e - s) t ;;
  x <- int_add_float s p ;;
  int_of_float x.

(** [f"\033[38;2;{r};{g};{b}m"] *)
Definition sgr_rgb (r g b : Z) : str :=
  [ESC] ++ lit "[38;2;" ++ format_int r ++ [SEMI] ++ format_int g
        ++ [SEMI] ++ format_int b ++ [LOWER_M].

(** ["\033[0m"] *)
Definition sgr_reset : str := [ESC] ++ lit "[0m".

(** The interpolation parameter of position [i] in a text of [length]
    characters. *)
Definition ratio (length i : Z) : res float :=
  if length =? 1 then Ok half else int_true_div i (length - 1).

(** The body of the [for i, char in enumerate(text)] loop, run on what is
    left of the text, with the index [i] and the accumulator [result]. *)
Fixpoint gradient_loop (start_color end_color : color) (length : Z)
    (i : Z) (text : str) (result : str) : res str :=
  match text with
  | [] => Ok result
  | char :: text' =>
      t <- ratio length i ;;
      r <- lerp (red start_color) (red end_color) t ;;
      g <- lerp (green start_color) (green end_color) t ;;
      b <- lerp (blue start_color) (blue end_color) t ;;
      gradient_loop start_color end_color length (i + 1) text'
        (result ++ sgr_rgb r g b ++ [char])
  end.

Definition gradient_text (self : MoonUI) (text : str) (use_alt : bool)
    : res str :=
  let '(start_color, end_color) :=
    if use_alt then (alt_start self, alt_end self)
    else (color_start self, color_end self) in
  let result := [] in
  let length := len text in
  if length =? 0 then Ok result
  else
    result <- gradient_loop start_color end_color length 0 text result ;;
    Ok (result ++ sgr_reset).

(** The outcome of [os.get_terminal_size().columns] on the host is a
    parameter of the functions that use it: the column count, or the
    exception the call raises. *)
Definition get_term_width (query : res Z) : res Z :=
  match query with
  | Ok columns => Ok columns
  | Raise e => if is_Exception e then Ok 80 else Raise e   (* except Exception *)
  end.

Definition box_line (self : MoonUI) (left fill right : str) (width : Z)
    : res str :=
  middle <- str_mul_any fill (width - 2) ;;
  gradient_text self (left ++ middle ++ right) false.

Definition box_top (self : MoonUI) (w : Z) : res str :=
  box_line self [BOX_TL] [BOX_H] [BOX_TR] w.

Definition box_mid (self : MoonUI) (w : Z) : res str :=
  box_line self [BOX_ML] [BOX_H] [BOX_MR] w.

Definition box_bot (self : MoonUI) (w : Z) : res str :=
  box_line self [BOX_BL] [BOX_H] [BOX_BR] w.

(** [a == b] on two [str]. *)
Fixpoint str_eqb (a b : str) : bool :=
  match a, b with
  | [], [] => true
  | x :: a', y :: b' => (x =? y)%N && str_eqb a' b'
  | _, _ => false
  end.

Definition box_row (self : MoonUI) (text : str) (w : Z) (align : str)
    : res str :=
  let clean := strip text in
  let inner := w - 2 in
  let '(pad_left, pad_right) :=
    if str_eqb align (lit "center") then
      let pad_left := (inner - len clean) / 2 in
      (pad_left, inner - len clean - pad_left)
    else
      (1, inner - len clean - 1) in
  let pad_left := Z.max pad_left 0 in
  let pad_right := Z.max pad_right 0 in
  let full_line :=
    [BOX_V] ++ str_mul [SPACE] pad_left ++ clean
            ++ str_mul [SPACE] pad_right ++ [BOX_V] in
  gradient_text self full_line false.

Definition box_empty (self : MoonUI) (w : Z) : res str :=
  box_row self [] w (lit "center").

(** What a Python function hands back: an [int] or a [str]. *)
Inductive pyobj : Type :=
| PyInt (z : Z)
| PyStr (s : str).

Definition centered_pad (self : MoonUI) (query : res Z) (box_width : Z)
    : res pyobj :=
  tw <- get_term_width query ;;
  Ok (PyStr (str_mul [SPACE] (Z.max ((tw - box_width) / 2) 0))).

(* ================================================================= *)
(** ** The other rendering helpers *)

(** [os.get_terminal_size().columns if hasattr(os, 'get_terminal_size')
    else 80]: [has_get_terminal_size] says whether the attribute is there,
    [query] is the outcome of the call, which is made only if it is. *)
Definition term_width_or_80 (has_get_terminal_size : bool) (query : res Z)
    : res Z :=
  if has_get_terminal_size then query else Ok 80.

(** [MoonUI.print_gradient_line]: the result is the line handed to
    [print]. *)
Definition print_gradient_line (self : MoonUI)
    (has_get_terminal_size : bool) (query : res Z)
    (text : str) (center use_alt : bool) : res str :=
  gradient <- gradient_text self text use_alt ;;
  if center then
    term_width <- term_width_or_80 has_get_terminal_size query ;;
    let padding := (term_width - len text) / 2 in
    Ok (str_mul [SPACE] padding ++ gradient)
  else
    Ok gradient.

(** The legacy helpers: [style] is not used. *)
Definition gradient_border_top (self : MoonUI) (width : Z) (style : str)
    : res str :=
  box_top self width.

Definition gradient_border_bottom (self : MoonUI) (width : Z) (style : str)
    : res str :=
  box_bot self width.

Definition gradient_border_line (self : MoonUI) (width : Z) (style : str)
    : res str :=
  box_mid self width.

(** The module-level [center_text]. *)
Definition center_text (has_get_terminal_size : bool) (query : res Z)
    (text : str) : res str :=
  term_width <- term_width_or_80 has_get_terminal_size query ;;
  let padding := (term_width - len text) / 2 in
  Ok (str_mul [SPACE] padding).

(* ================================================================= *)
(** ** Notions used in the statements *)

(** A color whose channels are in [0,255], and an engine whose four colors
    are such. *)
Definition valid_channel (z : Z) : Prop := 0 <= z <= 255.

Definition valid_color (c : color) : Prop :=
  valid_channel (red c) /\ valid_channel (green c) /\ valid_channel (blue c).

Definition valid_ui (self : MoonUI) : Prop :=
  valid_color (color_start self) /\ valid_color (color_end self) /\
  valid_color (alt_start self) /\ valid_color (alt_end self).

(** The gradient [gradient_text] picks. *)
Definition start_of (self : MoonUI) (use_alt : bool) : color :=
  if use_alt then alt_start self else color_start self.

Definition end_of (self : MoonUI) (use_alt : bool) : color :=
  if use_alt then alt_end self else color_end self.

(** The channel emitted at position [i] of a text of [length] characters,
    between [s] and [e]. *)
Definition channel_at (s e : Z) (length i : Z) : res Z :=
  t <- ratio length i ;; lerp s e t.

(** The same quantity in exact arithmetic: the floor of
    [s + (e - s) * i / (length - 1)], and of [s + (e - s) / 2] for a text of
    one character. *)
Definition exact_channel (s e : Z) (length i : Z) : Z :=
  if length =? 1 then (2 * s + (e - s)) / 2
  else (s * (length - 1) + (e - s) * i) / (length - 1).

(** A complete escape sequence: ESC, a bracket, characters of the class,
    [m]. *)
Definition csi (ps : str) : str := ESC :: LBRACKET :: ps ++ [LOWER_M].

Definition params (ps : str) : Prop := forallb is_param ps = true.

(** No complete escape sequence occurs in [l]. *)
Definition csi_free (l : str) : Prop :=
  forall a ps b, params ps -> l <> a ++ csi ps ++ b.

(** The strip operation as the specification words it: complete sequences are
    removed, every other character is kept where it is. *)
Inductive Stripped : str -> str -> Prop :=
| Stripped_nil : Stripped [] []
| Stripped_seq ps rest out :
    params ps -> Stripped rest out -> Stripped (csi ps ++ rest) out
| Stripped_keep c rest out :
    (forall ps r, params ps -> c :: rest <> csi ps ++ r) ->
    Stripped rest out -> Stripped (c :: rest) (c :: out).

(** [p] is a prefix of [l]. *)
Fixpoint starts_with (p l : str) : bool :=
  match p, l with
  | [], _ => true
  | a :: p', b :: l' => (a =? b)%N && starts_with p' l'
  | _ :: _, [] => false
  end.

(** A complete escape sequence starts at the head of [l]. *)
Definition csi_at (l : str) : bool :=
  match match_csi l with Some _ => true | None => false end.

(** A color-set sequence starts at the head of [l]: a complete sequence
    whose parameters begin with [38;2;]. *)
Definition color_set_at (l : str) : bool :=
  csi_at l && starts_with (ESC :: lit "[38;2;") l.

(** The reset sequence starts at the head of [l]. *)
Definition reset_at (l : str) : bool := starts_with sgr_reset l.

(** The number of positions of [l] at which [f] holds of what starts
    there. *)
Fixpoint count_at (f : str -> bool) (l : str) : nat :=
  match l with
  | [] => O
  | _ :: rest => ((if f l then 1 else 0) + count_at f rest)%nat
  end.

(** A rendered line: each character of the text preceded by the color-set
    sequence of its color. *)
Fixpoint render (cols : list color) (text : str) : str :=
  match cols, text with
  | col :: cols', char :: text' =>
      sgr_rgb (red col) (green col) (blue col) ++ [char] ++ render cols' text'
  | _, _ => []
  end.

(* ================================================================= *)
(** ** Notions used in the proofs *)

(** [b] is empty or starts with ESC: nothing before [b] can be completed
    into a sequence by the characters of [b]. *)
Definition boundary (b : str) : Prop := b = [] \/ exists b', b = ESC :: b'.

Definition inexact (r : shr_record) : bool := shr_r r || shr_s r.

Definition loc_inexact (l : location) : bool :=
  match l with loc_Exact => false | loc_Inexact _ => true end.

(** What [k] steps of [shr_1] have made of the mantissa [m]: the quotient by
    [2^k], and whether something was lost. *)
Definition shr_inv (m : Z) (ix0 : bool) (k : Z) (r : shr_record) : Prop :=
  0 <= shr_m r /\
  shr_m r * 2 ^ k <= m < (shr_m r + 1) * 2 ^ k /\
  (inexact r = true -> shr_m r * 2 ^ k < m \/ ix0 = true).

(** The datum [(m, e)], with something more to come when [ix] holds, lies
    between [lo / 2^g] and [hi / 2^g]. *)
Definition within (g lo hi m e : Z) (ix : bool) : Prop :=
  0 <= m /\ e <= 0 /\
  lo * 2 ^ (- e) <= m * 2 ^ g /\
  (m + (if ix then 1 else 0)) * 2 ^ g <= hi * 2 ^ (- e).

(** The float [x] has sign [s] and a magnitude between [lo / 2^g] and
    [hi / 2^g]. *)
Definition bounded_by (s : bool) (g lo hi : Z) (x : float) : Prop :=
  match x with
  | S754_zero s' => s' = s /\ lo <= 0 <= hi
  | S754_finite s' m e =>
      s' = s /\ e <= 0 /\
      lo * 2 ^ (- e) <= Zpos m * 2 ^ g <= hi * 2 ^ (- e)
  | _ => False
  end.

(** The color [col] is the one the loop computes at position [i] of a text of
    [length] characters, between [start_color] and [end_color]. *)
Definition paints (start_color end_color : color) (length i : Z)
    (col : color) : Prop :=
  channel_at (red start_color) (red end_color) length i = Ok (red col) /\
  channel_at (green start_color) (green end_color) length i = Ok (green col) /\
  channel_at (blue start_color) (blue end_color) length i = Ok (blue col).

(** The parameters of a color-set sequence. *)
Definition sgr_params (r g b : Z) : str :=
  lit "38;2;" ++ format_int r ++ [SEMI] ++ format_int g ++ [SEMI]
              ++ format_int b.

(** The emitted channels agree with the exact floor, at every position of a
    text of [length] characters. *)
Definition agrees (s e length : Z) : bool :=
  forallb (fun i => match channel_at s e length i with
                    | Ok v => v =? exact_channel s e length i
                    | Raise _ => false
                    end)
          (map Z.of_nat (seq 0 (Z.to_nat length))).

Definition gradient_agrees (start_color end_color : color) (length : Z)
    : bool :=
  agrees (red start_color) (red end_color) length
  && agrees (green start_color) (green end_color) length
  && agrees (blue start_color) (blue end_color) length.

(** ... for both gradients of an engine and every length from 1 to [n]. *)
Definition engine_agrees (self : MoonUI) (n : nat) : bool :=
  forallb (fun k =>
             gradient_agrees (color_start self) (color_end self) (Z.of_nat k)
             && gradient_agrees (alt_start self) (alt_end self) (Z.of_nat k))
          (seq 1 n).

(** An engine with one gradient, from [s] to [e]. *)
Definition engine (s e : color) : MoonUI :=
  {| color_start := s; color_end := e; alt_start := s; alt_end := e |}.

(* ================================================================= *)
(** ** The strip operation *)

Lemma match_params_length l r :
  match_params l = Some r -> (List.length r < List.length l)%nat.
Proof.
  revert r. induction l as [|c l IH]; intros r H; simpl in *.
  - discriminate.
  - destruct (is_param c).
    + apply IH in H. lia.
    + destruct (c =? LOWER_M)%N; inversion H; subst. lia.
Qed.

Lemma match_csi_length l r :
  match_csi l = Some r -> (S (S (List.length r)) < List.length l)%nat.
Proof.
  destruct l as [|c1 [|c2 l]]; simpl; try discriminate.
  destruct ((c1 =? ESC)%N && (c2 =? LBRACKET)%N); try discriminate.
  intros H. apply match_params_length in H. lia.
Qed.

Lemma sub_csi_fuel f1 : forall f2 l,
  (List.length l <= f1)%nat -> (List.length l <= f2)%nat ->
  sub_csi f1 l = sub_csi f2 l.
Proof.
  induction f1 as [|f1 IH]; intros f2 l H1 H2.
  - destruct l; simpl in H1; [|lia]. destruct f2; reflexivity.
  - destruct l as [|c rest]; [destruct f2; reflexivity|].
    destruct f2 as [|f2]; [simpl in H2; lia|].
    cbn [sub_csi]. destruct (match_csi (c :: rest)) as [r|] eqn:E.
    + apply match_csi_length in E. simpl in *. apply IH; lia.
    + f_equal. simpl in *. apply IH; lia.
Qed.

Lemma strip_nil : strip [] = [].
Proof. reflexivity. Qed.

(** The equation of the scan. *)
Lemma strip_cons c rest :
  strip (c :: rest) =
  match match_csi (c :: rest) with
  | Some rest' => strip rest'
  | None => c :: strip rest
  end.
Proof.
  unfold strip. cbn [List.length sub_csi].
  destruct (match_csi (c :: rest)) as [r|] eqn:E.
  - apply match_csi_length in E. simpl in E. apply sub_csi_fuel; lia.
  - reflexivity.
Qed.

Lemma strip_length l : (List.length (strip l) <= List.length l)%nat.
Proof.
  remember (List.length l) as n eqn:Hn.
  assert (H : (List.length l <= n)%nat) by lia. clear Hn.
  revert l H. induction n as [|n IH]; intros l H.
  - destruct l; simpl in *; [lia | lia].
  - destruct l as [|c rest]; [simpl; lia|].
    rewrite strip_cons. destruct (match_csi (c :: rest)) as [r|] eqn:E.
    + apply match_csi_length in E. simpl in *.
      specialize (IH r). lia.
    + simpl in *. specialize (IH rest). lia.
Qed.

Lemma is_param_not_esc c : is_param c = true -> c <> ESC.
Proof. intros H ->. discriminate. Qed.

Lemma match_params_run ps rest :
  params ps -> match_params (ps ++ LOWER_M :: rest) = Some rest.
Proof.
  unfold params. induction ps as [|c ps IH]; simpl; intros H.
  - reflexivity.
  - apply andb_true_iff in H as [Hc H]. rewrite Hc. auto.
Qed.

Lemma match_params_inv l r :
  match_params l = Some r ->
  exists ps, params ps /\ l = ps ++ LOWER_M :: r.
Proof.
  revert r. induction l as [|c l IH]; simpl; intros r H; [discriminate|].
  destruct (is_param c) eqn:Hc.
  - destruct (IH _ H) as (ps & Hps & ->). exists (c :: ps). split.
    + unfold params in *. simpl. now rewrite Hc.
    + reflexivity.
  - destruct (c =? LOWER_M)%N eqn:Hm; [|discriminate].
    apply N.eqb_eq in Hm. inversion H; subst. exists []. now split.
Qed.

Lemma csi_app ps rest : csi ps ++ rest = ESC :: LBRACKET :: ps ++ LOWER_M :: rest.
Proof. unfold csi. simpl. now rewrite <- app_assoc. Qed.

(** The pattern matches at the head exactly when a complete sequence starts
    there. *)
Lemma match_csi_complete ps rest :
  params ps -> match_csi (csi ps ++ rest) = Some rest.
Proof. intros H. rewrite csi_app. simpl. now apply match_params_run. Qed.

Lemma match_csi_inv l r :
  match_csi l = Some r -> exists ps, params ps /\ l = csi ps ++ r.
Proof.
  destruct l as [|c1 [|c2 l]]; simpl; try discriminate.
  destruct (c1 =? ESC)%N eqn:E1; simpl; [|discriminate].
  destruct (c2 =? LBRACKET)%N eqn:E2; simpl; [|discriminate].
  apply N.eqb_eq in E1, E2. subst. intros H.
  destruct (match_params_inv _ _ H) as (ps & Hps & ->).
  exists ps. split; [assumption|]. symmetry. apply csi_app.
Qed.

Lemma match_csi_none l :
  match_csi l = None -> forall ps r, params ps -> l <> csi ps ++ r.
Proof.
  intros H ps r Hps ->. rewrite match_csi_complete in H by assumption.
  discriminate.
Qed.

Lemma match_csi_head c l : c <> ESC -> match_csi (c :: l) = None.
Proof.
  intros H. destruct l as [|c2 l]; simpl; [reflexivity|].
  apply N.eqb_neq in H. now rewrite H.
Qed.

Lemma match_csi_esc_esc c l : match_csi (c :: ESC :: l) = None.
Proof. simpl. now rewrite andb_false_r. Qed.

Lemma strip_csi ps rest : params ps -> strip (csi ps ++ rest) = strip rest.
Proof.
  intros H. pose proof (match_csi_complete ps rest H) as E.
  change (csi ps ++ rest) with (ESC :: (LBRACKET :: ps ++ [LOWER_M]) ++ rest) in *.
  rewrite strip_cons. now rewrite E.
Qed.

Lemma strip_keep c rest :
  match_csi (c :: rest) = None -> strip (c :: rest) = c :: strip rest.
Proof. intros H. rewrite strip_cons. now rewrite H. Qed.

Lemma match_params_app_some x r b :
  match_params x = Some r -> match_params (x ++ b) = Some (r ++ b).
Proof.
  induction x as [|c x IH]; simpl; [discriminate|].
  destruct (is_param c); [assumption|].
  destruct (c =? LOWER_M)%N; [|discriminate].
  intros H. inversion H. reflexivity.
Qed.

Lemma match_params_app_none x b :
  boundary b -> match_params x = None -> match_params (x ++ b) = None.
Proof.
  intros Hb. induction x as [|c x IH]; simpl.
  - intros _. destruct Hb as [->|[b' ->]]; reflexivity.
  - destruct (is_param c); [assumption|].
    destruct (c =? LOWER_M)%N; [discriminate|reflexivity].
Qed.

Lemma match_csi_app_some a r b :
  match_csi a = Some r -> match_csi (a ++ b) = Some (r ++ b).
Proof.
  destruct a as [|c1 [|c2 x]]; simpl; try discriminate.
  destruct ((c1 =? ESC)%N && (c2 =? LBRACKET)%N); [|discriminate].
  apply match_params_app_some.
Qed.

Lemma match_csi_app_none c a b :
  boundary b -> match_csi (c :: a) = None -> match_csi (c :: a ++ b) = None.
Proof.
  intros Hb. destruct a as [|c2 x].
  - intros _. destruct Hb as [->|[b' ->]]; [reflexivity|].
    apply match_csi_esc_esc.
  - simpl. destruct ((c =? ESC)%N && (c2 =? LBRACKET)%N); [|reflexivity].
    now apply match_params_app_none.
Qed.

(** Stripping distributes over a cut placed at a boundary. *)
Lemma strip_app_boundary b : boundary b ->
  forall n a, (List.length a <= n)%nat -> strip (a ++ b) = strip a ++ strip b.
Proof.
  intros Hb. induction n as [|n IH]; intros a Hn.
  - destruct a; [reflexivity | simpl in Hn; lia].
  - destruct a as [|c a]; [reflexivity|].
    change ((c :: a) ++ b) with (c :: a ++ b).
    rewrite (strip_cons c a), (strip_cons c (a ++ b)).
    destruct (match_csi (c :: a)) as [r|] eqn:E.
    + pose proof (match_csi_app_some _ _ b E) as E'.
      change ((c :: a) ++ b) with (c :: a ++ b) in E'. rewrite E'.
      apply match_csi_length in E. simpl in *. apply IH. lia.
    + rewrite (match_csi_app_none c a b Hb E). simpl in *.
      rewrite IH by lia. reflexivity.
Qed.

Lemma boundary_csi ps b : boundary (csi ps ++ b).
Proof. right. eexists. reflexivity. Qed.

(** Every occurrence of a complete sequence is removed. *)
Lemma strip_occurrence a ps b :
  params ps -> strip (a ++ csi ps ++ b) = strip a ++ strip b.
Proof.
  intros H.
  rewrite (strip_app_boundary _ (boundary_csi ps b) (List.length a)) by lia.
  now rewrite strip_csi.
Qed.

Lemma csi_free_tail c l : csi_free (c :: l) -> csi_free l.
Proof.
  intros H a ps b Hps ->. apply (H (c :: a) ps b Hps). reflexivity.
Qed.

(** A text in which no complete sequence occurs is left as it is, and only
    such a text is. *)
Lemma strip_csi_free l : csi_free l <-> strip l = l.
Proof.
  split.
  - induction l as [|c l IH]; intros H; [reflexivity|].
    rewrite strip_cons. destruct (match_csi (c :: l)) as [r|] eqn:E.
    + destruct (match_csi_inv _ _ E) as (ps & Hps & Hl).
      exfalso. apply (H [] ps r Hps). exact Hl.
    + f_equal. apply IH. eapply csi_free_tail; eassumption.
  - intros H a ps b Hps ->.
    rewrite strip_occurrence in H by assumption.
    apply (f_equal (@List.length codepoint)) in H.
    pose proof (strip_length a). pose proof (strip_length b).
    rewrite !length_app in H. unfold csi in H. simpl in H.
    rewrite length_app in H. simpl in H. lia.
Qed.

(** The scan computes the relation of the specification, and nothing else
    satisfies it. *)
Lemma strip_Stripped l : Stripped l (strip l).
Proof.
  remember (List.length l) as n eqn:Hn.
  assert (H : (List.length l <= n)%nat) by lia. clear Hn.
  revert l H. induction n as [|n IH]; intros l H.
  - destruct l; [constructor | simpl in H; lia].
  - destruct l as [|c rest]; [constructor|].
    rewrite strip_cons. destruct (match_csi (c :: rest)) as [r|] eqn:E.
    + destruct (match_csi_inv _ _ E) as (ps & Hps & Hl). rewrite Hl.
      constructor; [assumption|]. apply IH.
      apply match_csi_length in E. simpl in *. lia.
    + constructor.
      * now apply match_csi_none.
      * apply IH. simpl in H. lia.
Qed.

Lemma Stripped_strip l out : Stripped l out -> strip l = out.
Proof.
  induction 1 as [|ps rest out Hps _ IH|c rest out Hno _ IH].
  - reflexivity.
  - now rewrite strip_csi.
  - rewrite strip_cons. destruct (match_csi (c :: rest)) as [r|] eqn:E.
    + destruct (match_csi_inv _ _ E) as (ps & Hps & Hl).
      exfalso. exact (Hno ps r Hps Hl).
    + now rewrite IH.
Qed.

(* ================================================================= *)
(** ** Rounding: bounds that survive [binary_round_aux]

    A datum [(m, e)] stands for [m * 2^e].  All the data met here have
    [e <= 0] and are compared with integers scaled by [2^g]: the bound
    [lo * 2^(-e) <= m * 2^g <= hi * 2^(-e)] says that [m * 2^e * 2^g] lies
    between [lo] and [hi]. *)

Lemma pow2_gt0 k : 0 <= k -> 0 < 2 ^ k.
Proof. intros. now apply Z.pow_pos_nonneg. Qed.

Lemma pow2_split a b : 0 <= a -> 0 <= b -> 2 ^ (a + b) = 2 ^ a * 2 ^ b.
Proof. intros. now apply Z.pow_add_r. Qed.

Lemma digits2_pos_bound p : forall j,
  0 <= j -> Zpos p < 2 ^ j -> Zpos (digits2_pos p) <= j.
Proof.
  induction p as [p IH|p IH|]; intros j Hj H; cbn [digits2_pos].
  - assert (j <> 0) by (intros ->; simpl in H; lia).
    replace j with (Z.succ (j - 1)) in H by lia.
    rewrite Z.pow_succ_r in H by lia.
    rewrite Pos2Z.inj_succ. specialize (IH (j - 1)). lia.
  - assert (j <> 0) by (intros ->; simpl in H; lia).
    replace j with (Z.succ (j - 1)) in H by lia.
    rewrite Z.pow_succ_r in H by lia.
    rewrite Pos2Z.inj_succ. specialize (IH (j - 1)). lia.
  - assert (j <> 0) by (intros ->; simpl in H; lia). lia.
Qed.

Lemma Zdigits2_bound m j : 0 <= j -> 0 <= m < 2 ^ j -> Zdigits2 m <= j.
Proof.
  intros Hj [H0 H]. destruct m as [|p|p]; simpl; [lia| |lia].
  now apply digits2_pos_bound.
Qed.

Lemma fexp_le x g : 0 <= g <= 1074 -> x <= 53 - g -> fexp prec emax x <= - g.
Proof. unfold fexp, emin, prec, emax. lia. Qed.

Lemma fexp_le0 x : x <= 53 -> fexp prec emax x <= 0.
Proof. unfold fexp, emin, prec, emax. lia. Qed.

(** *** Shifting right *)

Lemma shr_1_inv m ix0 k r :
  0 <= k -> shr_inv m ix0 k r -> shr_inv m ix0 (k + 1) (shr_1 r).
Proof.
  intros Hk (H0 & [Hlo Hhi] & Hix).
  pose proof (pow2_gt0 k Hk) as HX.
  unfold shr_inv. replace (k + 1) with (Z.succ k) by lia.
  rewrite Z.pow_succ_r by lia. set (X := 2 ^ k) in *.
  destruct r as [q rr ss]. unfold inexact in *. cbn [shr_m shr_r shr_s] in *.
  destruct q as [|[p|p|]|p]; cbn [shr_1 shr_m shr_r shr_s]; try lia.
  all: try rewrite (Pos2Z.inj_xO p) in *.
  all: repeat split; try lia.
  all: cbn [orb]; intros H; destruct (Hix H) as [Hlt|Hlt]; [left; lia|now right].
Qed.


Lemma shr_iter_inv m ix0 r k :
  shr_inv m ix0 0 r -> shr_inv m ix0 (Z.of_nat k) (Nat.iter k shr_1 r).
Proof.
  intros H. induction k as [|k IH]; [exact H|].
  rewrite Nat2Z.inj_succ. cbn [Nat.iter nat_rect].
  replace (Z.succ (Z.of_nat k)) with (Z.of_nat k + 1) by lia.
  apply shr_1_inv; [lia|exact IH].
Qed.

Lemma iter_pos_nat {A} (f : A -> A) p : forall x,
  iter_pos f p x = Nat.iter (Pos.to_nat p) f x.
Proof.
  induction p as [p IH|p IH|]; intros x; cbn [iter_pos].
  - rewrite !IH. rewrite Pos2Nat.inj_xI.
    replace (S (2 * Pos.to_nat p)) with (Pos.to_nat p + (Pos.to_nat p + 1))%nat by lia.
    rewrite !Nat.iter_add. reflexivity.
  - rewrite !IH. rewrite Pos2Nat.inj_xO.
    replace (2 * Pos.to_nat p)%nat with (Pos.to_nat p + Pos.to_nat p)%nat by lia.
    rewrite Nat.iter_add. reflexivity.
  - reflexivity.
Qed.

Lemma shr_record_of_loc_inv m l :
  0 <= m -> shr_inv m (loc_inexact l) 0 (shr_record_of_loc m l).
Proof.
  intros Hm. unfold shr_inv, inexact.
  destruct l as [|[]]; cbn; repeat split; try lia; auto.
Qed.

Lemma shr_record_of_loc_m m l : shr_m (shr_record_of_loc m l) = m.
Proof. destruct l as [|[]]; reflexivity. Qed.

Lemma shr_record_of_loc_inexact m l :
  inexact (shr_record_of_loc m l) = loc_inexact l.
Proof. destruct l as [|[]]; reflexivity. Qed.

(** [shr] on a record, in one equation. *)
Lemma shr_spec r e n :
  shr r e n = (Nat.iter (Z.to_nat n) shr_1 r, e + Z.max n 0).
Proof.
  destruct n as [|p|p]; cbn [shr Z.to_nat Nat.iter nat_rect].
  - f_equal. lia.
  - rewrite iter_pos_nat. f_equal; lia.
  - f_equal. lia.
Qed.

Lemma round_nearest_even_range q r :
  q <= round_nearest_even q (loc_of_shr_record r)
    <= q + (if inexact r then 1 else 0).
Proof.
  destruct r as [m [|] [|]]; unfold inexact; cbn; try lia.
  destruct (Z.even q); lia.
Qed.

Lemma mul_cancel_le a b c : 0 < c -> a * c <= b * c -> a <= b.
Proof. intros Hc H. now apply Z.mul_le_mono_pos_r in H. Qed.

Lemma mul_cancel_lt a b c : 0 < c -> a * c < b * c -> a < b.
Proof. intros Hc H. now apply Z.mul_lt_mono_pos_r in H. Qed.

(** The first step of rounding keeps the bounds. *)
Lemma shr_fexp_within g lo hi m e l :
  0 <= g <= 1074 -> hi < 2 ^ 53 ->
  within g lo hi m e (loc_inexact l) ->
  0 < m \/ loc_inexact l = false \/ -1074 <= e ->
  within g lo hi (shr_m (fst (shr_fexp prec emax m e l)))
    (snd (shr_fexp prec emax m e l))
    (inexact (fst (shr_fexp prec emax m e l))).
Proof.
  intros Hg Hhi (Hm & He & Hlo & Hup) Hpos.
  unfold shr_fexp. rewrite shr_spec. cbn [fst snd].
  set (n := fexp prec emax (Zdigits2 m + e) - e).
  destruct (Z_le_gt_dec n 0) as [Hn|Hn].
  - replace (Z.to_nat n) with O by lia. replace (Z.max n 0) with 0 by lia.
    cbn [Nat.iter nat_rect]. rewrite shr_record_of_loc_m, shr_record_of_loc_inexact.
    rewrite Z.add_0_r. repeat split; assumption.
  - pose proof (shr_iter_inv m (loc_inexact l) _ (Z.to_nat n)
                  (shr_record_of_loc_inv m l Hm)) as (Hq & [Hq1 Hq2] & Hix).
    rewrite Z2Nat.id in * by lia.
    set (r := Nat.iter (Z.to_nat n) shr_1 (shr_record_of_loc m l)) in *.
    set (q := shr_m r) in *.
    replace (e + Z.max n 0) with (e + n) by lia.
    pose proof (pow2_gt0 n ltac:(lia)) as HX.
    pose proof (pow2_gt0 g ltac:(lia)) as HG.
    pose proof (pow2_gt0 (- e) ltac:(lia)) as HY0.
    destruct (Z.eq_dec m 0) as [Hm0|Hm0].
    + (* the mantissa is zero, and exact *)
      destruct Hpos as [Hpos|[Hpos|Hpos]]; [lia| |].
      2:{ exfalso. subst m. unfold n, fexp, emin, prec, emax in Hn.
          cbn [Zdigits2] in Hn. lia. }
      rewrite Hpos in *. subst m.
      assert (q = 0) by nia.
      assert (inexact r = false) as Hr.
      { destruct (inexact r); [|reflexivity].
        destruct (Hix eq_refl); [nia|discriminate]. }
      rewrite Hr.
      assert (e + n <= 0).
      { unfold n. cbn [Zdigits2]. pose proof (fexp_le0 (0 + e)). lia. }
      pose proof (pow2_gt0 (- (e + n)) ltac:(lia)).
      repeat split; try lia; nia.
    + (* a positive mantissa: after the shift the exponent is at most [- g] *)
      assert (Hmh : m * 2 ^ g < 2 ^ 53 * 2 ^ (- e)).
      { apply Z.le_lt_trans with (hi * 2 ^ (- e)); [|nia].
        destruct (loc_inexact l); nia. }
      rewrite <- pow2_split in Hmh by lia.
      assert (Hlt : g < 53 + - e).
      { apply (Z.pow_lt_mono_r_iff 2); [lia|lia|]. nia. }
      replace (53 + - e) with ((53 - e - g) + g) in Hmh by lia.
      rewrite pow2_split in Hmh by lia.
      apply mul_cancel_lt in Hmh; [|assumption].
      assert (Hd : Zdigits2 m <= 53 - e - g).
      { apply Zdigits2_bound; lia. }
      assert (He1 : e + n <= - g).
      { unfold n. pose proof (fexp_le (Zdigits2 m + e) g Hg). lia. }
      set (e1 := e + n) in *.
      set (W := 2 ^ (- e1 - g)).
      assert (HW : 0 < W) by (apply pow2_gt0; lia).
      assert (HY1 : 2 ^ (- e1) = W * 2 ^ g).
      { unfold W. rewrite <- pow2_split by lia. f_equal. lia. }
      assert (HY0' : 2 ^ (- e) = W * 2 ^ g * 2 ^ n).
      { rewrite <- HY1, <- pow2_split by lia. f_equal. lia. }
      rewrite HY0' in Hlo, Hup. unfold within. rewrite HY1.
      set (G := 2 ^ g) in *. set (X := 2 ^ n) in *.
      assert (Hlo' : lo * W * X <= m).
      { apply (mul_cancel_le _ _ G HG). nia. }
      assert (Hup' : m + (if loc_inexact l then 1 else 0) <= hi * W * X).
      { apply (mul_cancel_le _ _ G HG). nia. }
      assert (Hlq : lo * W <= q).
      { assert (lo * W < q + 1); [|lia].
        apply (mul_cancel_lt _ _ X HX). nia. }
      assert (Huq : q + (if inexact r then 1 else 0) <= hi * W).
      { destruct (inexact r).
        - assert (q < hi * W); [|lia]. apply (mul_cancel_lt _ _ X HX).
          destruct (Hix eq_refl) as [Hc|Hc]; [|rewrite Hc in Hup'];
            destruct (loc_inexact l); nia.
        - rewrite Z.add_0_r. apply (mul_cancel_le _ _ X HX).
          destruct (loc_inexact l); nia. }
      repeat split; try lia; nia.
Qed.

(** Rounding keeps the bounds, neither overflows nor yields a NaN. *)
Lemma round_aux_bounded s g lo hi m e l :
  0 <= g <= 1074 -> hi < 2 ^ 53 ->
  within g lo hi m e (loc_inexact l) ->
  0 < m \/ loc_inexact l = false \/ -1074 <= e ->
  bounded_by s g lo hi (binary_round_aux prec emax s m e l).
Proof.
  intros Hg Hhi Hw Hpos. unfold binary_round_aux.
  pose proof (shr_fexp_within g lo hi m e l Hg Hhi Hw Hpos) as H1.
  destruct (shr_fexp prec emax m e l) as [r e1]. cbn [fst snd] in H1.
  pose proof (round_nearest_even_range (shr_m r) r) as Hr.
  set (m1 := round_nearest_even (shr_m r) (loc_of_shr_record r)) in *.
  assert (H1' : within g lo hi m1 e1 (loc_inexact loc_Exact)).
  { destruct H1 as (Hq & He1 & Hl & Hu).
    pose proof (pow2_gt0 g ltac:(lia)) as HG. cbn [loc_inexact].
    repeat split; try lia; nia. }
  pose proof (shr_fexp_within g lo hi m1 e1 loc_Exact Hg Hhi H1'
                (or_intror (or_introl eq_refl))) as H2.
  destruct (shr_fexp prec emax m1 e1 loc_Exact) as [r2 e2]. cbn [fst snd] in H2.
  destruct H2 as (Hq & He2 & Hl & Hu).
  pose proof (pow2_gt0 g ltac:(lia)) as HG.
  pose proof (pow2_gt0 (- e2) ltac:(lia)) as HY.
  destruct (shr_m r2) as [|p|p]; [| |lia].
  - cbn [bounded_by]. split; [reflexivity|]. split.
    + apply (mul_cancel_le _ _ _ HY). lia.
    + apply (mul_cancel_le _ _ _ HY). destruct (inexact r2); lia.
  - replace (e2 <=? emax - prec) with true
      by (symmetry; apply Z.leb_le; unfold emax, prec; lia).
    cbn [bounded_by]. rewrite Z.mul_add_distr_r in Hu.
    repeat split; try lia. destruct (inexact r2); lia.
Qed.

(** *** The operations *)

Lemma pos_iter_xO m d : Zpos (Pos.iter xO m d) = Zpos m * 2 ^ Zpos d.
Proof.
  induction d as [|d IH] using Pos.peano_ind.
  - cbn [Pos.iter]. rewrite Pos2Z.inj_xO. change (2 ^ 1) with 2. lia.
  - rewrite Pos.iter_succ, Pos2Z.inj_xO, IH, Pos2Z.inj_succ.
    rewrite Z.pow_succ_r by lia. lia.
Qed.

Lemma shl_align_spec m e e' :
  snd (shl_align m e e') <= e /\
  Zpos (fst (shl_align m e e')) = Zpos m * 2 ^ (e - snd (shl_align m e e')).
Proof.
  unfold shl_align. destruct (e' - e) as [|d|d] eqn:E; cbn [fst snd].
  - rewrite Z.sub_diag. cbn. lia.
  - rewrite Z.sub_diag. cbn. lia.
  - rewrite pos_iter_xO. replace (e - e') with (Zpos d) by lia. lia.
Qed.

Lemma binary_round_bounded s g lo hi m e :
  0 <= g <= 1074 -> hi < 2 ^ 53 -> e <= 0 ->
  lo * 2 ^ (- e) <= Zpos m * 2 ^ g <= hi * 2 ^ (- e) ->
  bounded_by s g lo hi (binary_round prec emax s m e).
Proof.
  intros Hg Hhi He [Hlo Hup]. unfold binary_round.
  pose proof (shl_align_spec m e (fexp prec emax (Zpos (digits2_pos m) + e)))
    as [He' Hm'].
  destruct (shl_align m e (fexp prec emax (Zpos (digits2_pos m) + e)))
    as [mz ez]. cbn [fst snd] in *.
  apply round_aux_bounded; try assumption; [|left; lia].
  pose proof (pow2_gt0 (e - ez) ltac:(lia)) as HX.
  assert (HY : 2 ^ (- ez) = 2 ^ (- e) * 2 ^ (e - ez)).
  { rewrite <- pow2_split by lia. f_equal. lia. }
  unfold within. cbn [loc_inexact]. rewrite Hm', HY.
  repeat split; try lia; nia.
Qed.

Lemma binary_normalize_bounded g lo hi z :
  0 <= g <= 1074 -> hi < 2 ^ 53 -> lo <= Z.abs z * 2 ^ g <= hi ->
  bounded_by (z <? 0) g lo hi (binary_normalize prec emax z 0 false).
Proof.
  intros Hg Hhi H. destruct z as [|p|p]; cbn [binary_normalize Z.ltb Z.compare].
  - cbn [bounded_by]. split; [reflexivity|]. simpl in H. lia.
  - apply binary_round_bounded; try assumption; [lia|]. simpl in *. lia.
  - apply binary_round_bounded; try assumption; [lia|]. simpl in *. lia.
Qed.

(** The conversion of an integer below [2^53] is exact. *)
Lemma float_of_int_bounded z :
  Z.abs z < 2 ^ 53 ->
  exists f, float_of_int z = Ok f /\
            bounded_by (z <? 0) 0 (Z.abs z) (Z.abs z) f.
Proof.
  intros H.
  pose proof (binary_normalize_bounded 0 (Z.abs z) (Z.abs z) z
                ltac:(lia) H ltac:(simpl; lia)) as Hb.
  unfold float_of_int.
  destruct (binary_normalize prec emax z 0 false); try contradiction;
    eexists; (split; [reflexivity|exact Hb]).
Qed.

Lemma bounded_by_weaken s g lo hi lo' hi' x :
  bounded_by s g lo hi x -> lo' <= lo -> hi <= hi' ->
  bounded_by s g lo' hi' x.
Proof.
  destruct x as [s'|s'| |s' m e]; cbn [bounded_by]; try tauto.
  - intros (Hs & H) H1 H2. split; [assumption|lia].
  - intros (Hs & He & Hl & Hu) H1 H2.
    pose proof (pow2_gt0 (- e) ltac:(lia)). repeat split; try assumption; nia.
Qed.

Lemma bounded_by_rescale s g lo hi k x :
  0 <= g -> 0 <= k -> bounded_by s g lo hi x ->
  bounded_by s (g + k) (lo * 2 ^ k) (hi * 2 ^ k) x.
Proof.
  intros Hg Hk. pose proof (pow2_gt0 k Hk) as HK.
  destruct x as [s'|s'| |s' m e]; cbn [bounded_by]; try tauto.
  - intros (Hs & H). split; [assumption|]. nia.
  - intros (Hs & He & Hl & Hu). rewrite pow2_split by lia.
    pose proof (pow2_gt0 (- e) ltac:(lia)).
    set (Y := 2 ^ (- e)) in *. set (G := 2 ^ g) in *. set (K := 2 ^ k) in *.
    repeat split; try assumption.
    + replace (lo * K * Y) with ((lo * Y) * K) by ring.
      replace (Z.pos m * (G * K)) with ((Z.pos m * G) * K) by ring.
      apply Z.mul_le_mono_nonneg_r; lia.
    + replace (hi * K * Y) with ((hi * Y) * K) by ring.
      replace (Z.pos m * (G * K)) with ((Z.pos m * G) * K) by ring.
      apply Z.mul_le_mono_nonneg_r; lia.
Qed.

Lemma fmul_bounded s1 s2 g1 g2 lo1 hi1 lo2 hi2 x y :
  0 <= g1 -> 0 <= g2 -> g1 + g2 <= 1074 ->
  0 <= lo1 -> 0 <= lo2 -> hi1 * hi2 < 2 ^ 53 ->
  bounded_by s1 g1 lo1 hi1 x -> bounded_by s2 g2 lo2 hi2 y ->
  bounded_by (xorb s1 s2) (g1 + g2) (lo1 * lo2) (hi1 * hi2) (fmul x y).
Proof.
  intros Hg1 Hg2 Hg Hl1 Hl2 Hhi Hx Hy.
  destruct x as [sx|sx| |sx mx ex]; try contradiction;
  destruct y as [sy|sy| |sy my ey]; try contradiction;
  cbn [bounded_by] in Hx, Hy.
  - destruct Hx as [-> Hx], Hy as [-> Hy]. cbn. split; [reflexivity|]. nia.
  - destruct Hx as [-> Hx], Hy as (-> & He & Hly & Huy).
    pose proof (pow2_gt0 (- ey) ltac:(lia)).
    pose proof (pow2_gt0 g2 ltac:(lia)).
    cbn. split; [reflexivity|]. nia.
  - destruct Hy as [-> Hy], Hx as (-> & He & Hlx & Hux).
    pose proof (pow2_gt0 (- ex) ltac:(lia)).
    pose proof (pow2_gt0 g1 ltac:(lia)).
    cbn. split; [reflexivity|]. nia.
  - destruct Hx as (-> & Hex & Hlx & Hux), Hy as (-> & Hey & Hly & Huy).
    unfold fmul. cbn [SFmul].
    apply round_aux_bounded; [lia|assumption| |left; lia].
    pose proof (pow2_gt0 (- ex) ltac:(lia)).
    pose proof (pow2_gt0 (- ey) ltac:(lia)).
    pose proof (pow2_gt0 g1 ltac:(lia)).
    pose proof (pow2_gt0 g2 ltac:(lia)).
    unfold within. cbn [loc_inexact].
    replace (- (ex + ey)) with (- ex + - ey) by lia.
    rewrite !pow2_split by lia. rewrite Pos2Z.inj_mul, Z.add_0_r.
    set (X := 2 ^ (- ex)) in *. set (Y := 2 ^ (- ey)) in *.
    set (G1 := 2 ^ g1) in *. set (G2 := 2 ^ g2) in *.
    repeat split; try lia.
    + replace (lo1 * lo2 * (X * Y)) with ((lo1 * X) * (lo2 * Y)) by ring.
      replace (Z.pos mx * Z.pos my * (G1 * G2))
        with ((Z.pos mx * G1) * (Z.pos my * G2)) by ring.
      apply Z.mul_le_mono_nonneg; nia.
    + replace (hi1 * hi2 * (X * Y)) with ((hi1 * X) * (hi2 * Y)) by ring.
      replace (Z.pos mx * Z.pos my * (G1 * G2))
        with ((Z.pos mx * G1) * (Z.pos my * G2)) by ring.
      apply Z.mul_le_mono_nonneg; nia.
Qed.

Lemma shl_align_le m e e' : e' <= e -> snd (shl_align m e e') = e'.
Proof.
  intros H. unfold shl_align. destruct (e' - e) as [|d|d] eqn:E; cbn [snd]; lia.
Qed.

(** The two operands of an addition, brought to the smaller exponent. *)
Lemma shl_align_bounds g lo hi m e ez :
  ez <= e -> e <= 0 ->
  lo * 2 ^ (- e) <= Zpos m * 2 ^ g <= hi * 2 ^ (- e) ->
  lo * 2 ^ (- ez) <= Zpos (fst (shl_align m e ez)) * 2 ^ g <= hi * 2 ^ (- ez).
Proof.
  intros H He [Hl Hu].
  pose proof (shl_align_spec m e ez) as [_ Hm].
  rewrite (shl_align_le m e ez H) in Hm. rewrite Hm.
  pose proof (pow2_gt0 (e - ez) ltac:(lia)) as HX.
  replace (- ez) with (- e + (e - ez)) by lia. rewrite pow2_split by lia.
  set (X := 2 ^ (e - ez)) in *. set (Y := 2 ^ (- e)) in *.
  set (G := 2 ^ g) in *. split.
  - replace (lo * (Y * X)) with ((lo * Y) * X) by ring.
    replace (Z.pos m * X * G) with ((Z.pos m * G) * X) by ring.
    apply Z.mul_le_mono_nonneg_r; lia.
  - replace (hi * (Y * X)) with ((hi * Y) * X) by ring.
    replace (Z.pos m * X * G) with ((Z.pos m * G) * X) by ring.
    apply Z.mul_le_mono_nonneg_r; lia.
Qed.

Lemma bounded_finite_pos s g lo hi m e :
  0 <= g -> bounded_by s g lo hi (S754_finite s m e) -> 0 < hi.
Proof.
  intros Hg (_ & He & Hl & Hu).
  pose proof (pow2_gt0 (- e) ltac:(lia)). pose proof (pow2_gt0 g Hg). nia.
Qed.

Lemma fadd_bounded_pos g lo1 hi1 lo2 hi2 x y :
  0 <= g <= 1074 -> hi1 + hi2 < 2 ^ 53 ->
  bounded_by false g lo1 hi1 x -> bounded_by false g lo2 hi2 y ->
  bounded_by false g (lo1 + lo2) (hi1 + hi2) (fadd x y).
Proof.
  intros Hg Hhi Hx Hy.
  destruct x as [sx|sx| |sx mx ex]; try contradiction;
  destruct y as [sy|sy| |sy my ey]; try contradiction.
  - destruct Hx as [-> Hx], Hy as [-> Hy]. cbn. split; [reflexivity|lia].
  - destruct Hx as [-> Hx]. cbn [fadd SFadd].
    eapply bounded_by_weaken; [exact Hy|lia|lia].
  - destruct Hy as [-> Hy]. cbn [fadd SFadd].
    eapply bounded_by_weaken; [exact Hx|lia|lia].
  - destruct Hx as (-> & Hex & Hbx), Hy as (-> & Hey & Hby).
    unfold fadd. cbn [SFadd cond_Zopp].
    set (ez := Z.min ex ey).
    pose proof (shl_align_bounds g lo1 hi1 mx ex ez ltac:(lia) Hex Hbx) as HX.
    pose proof (shl_align_bounds g lo2 hi2 my ey ez ltac:(lia) Hey Hby) as HY.
    set (MX := fst (shl_align mx ex ez)) in *.
    set (MY := fst (shl_align my ey ez)) in *.
    change (Z.pos MX + Z.pos MY) with (Z.pos (MX + MY)).
    cbn [binary_normalize]. apply binary_round_bounded; [lia|lia|lia|].
    rewrite Pos2Z.inj_add. lia.
Qed.

Lemma fadd_bounded_neg g lo1 hi1 lo2 hi2 x y :
  0 <= g <= 1074 -> hi1 - lo2 < 2 ^ 53 -> hi2 <= lo1 ->
  bounded_by false g lo1 hi1 x -> bounded_by true g lo2 hi2 y ->
  bounded_by false g (lo1 - hi2) (hi1 - lo2) (fadd x y).
Proof.
  intros Hg Hhi Hle Hx Hy.
  destruct x as [sx|sx| |sx mx ex]; try contradiction;
  destruct y as [sy|sy| |sy my ey]; try contradiction.
  - destruct Hx as [-> Hx], Hy as [-> Hy]. cbn. split; [reflexivity|lia].
  - destruct Hx as [-> Hx]. exfalso.
    destruct Hy as [-> Hy'].
    pose proof (bounded_finite_pos true g lo2 hi2 my ey ltac:(lia)
                  (conj eq_refl Hy')). lia.
  - destruct Hy as [-> Hy]. cbn [fadd SFadd].
    eapply bounded_by_weaken; [exact Hx|lia|lia].
  - destruct Hx as (-> & Hex & Hbx), Hy as (-> & Hey & Hby).
    unfold fadd. cbn [SFadd cond_Zopp].
    set (ez := Z.min ex ey).
    pose proof (shl_align_bounds g lo1 hi1 mx ex ez ltac:(lia) Hex Hbx) as HX.
    pose proof (shl_align_bounds g lo2 hi2 my ey ez ltac:(lia) Hey Hby) as HY.
    set (MX := fst (shl_align mx ex ez)) in *.
    set (MY := fst (shl_align my ey ez)) in *.
    pose proof (pow2_gt0 (- ez) ltac:(lia)) as HZ.
    pose proof (pow2_gt0 g ltac:(lia)) as HG.
    set (Z0' := 2 ^ (- ez)) in *. set (G := 2 ^ g) in *.
    assert (Hge : Z.pos MY <= Z.pos MX).
    { apply (mul_cancel_le _ _ G HG). nia. }
    assert (Hb : (lo1 - hi2) * Z0' <= (Z.pos MX - Z.pos MY) * G
                 <= (hi1 - lo2) * Z0') by lia.
    replace (Z.pos MX + - Z.pos MY) with (Z.pos MX - Z.pos MY) by lia.
    destruct (Z.pos MX - Z.pos MY) as [|p|p] eqn:E; [| |lia].
    + cbn. split; [reflexivity|]. split.
      * apply (mul_cancel_le _ _ Z0' HZ). lia.
      * apply (mul_cancel_le _ _ Z0' HZ). lia.
    + cbn [binary_normalize]. apply binary_round_bounded; [lia|lia|lia|].
      exact Hb.
Qed.

(** [int(x)] of a non-negative float within bounds. *)
Lemma int_of_float_bounded g lo hi x :
  0 <= g -> bounded_by false g lo hi x ->
  exists v, int_of_float x = Ok v /\ lo / 2 ^ g <= v <= hi / 2 ^ g.
Proof.
  intros Hg Hx. pose proof (pow2_gt0 g Hg) as HG.
  destruct x as [sx|sx| |sx m e]; try contradiction.
  - destruct Hx as [_ Hx]. exists 0. split; [reflexivity|]. split.
    + apply Z.div_le_upper_bound; lia.
    + apply Z.div_le_lower_bound; lia.
  - destruct Hx as (-> & He & Hl & Hu). cbn [int_of_float cond_Zopp].
    eexists. split; [reflexivity|].
    rewrite Z.shiftl_div_pow2 by lia.
    pose proof (pow2_gt0 (- e) ltac:(lia)) as HY.
    set (Y := 2 ^ (- e)) in *. set (G := 2 ^ g) in *.
    pose proof (Z.mul_div_le (Z.pos m) Y HY) as Hv1.
    pose proof (Z.mul_succ_div_gt (Z.pos m) Y HY) as Hv2.
    set (v := Z.pos m / Y) in *. split.
    + assert (lo / G < v + 1); [|lia].
      apply Z.div_lt_upper_bound; [assumption|].
      apply (mul_cancel_lt _ _ Y HY). nia.
    + apply Z.div_le_lower_bound; [assumption|].
      apply (mul_cancel_le _ _ Y HY). nia.
Qed.

Lemma new_location_inexact nb r :
  loc_inexact (new_location nb r) = true -> r <> 0.
Proof.
  unfold new_location, new_location_even, new_location_odd.
  intros H ->. destruct (Z.even nb); cbn in H; discriminate.
Qed.

Lemma digits2_pos_gt p : Zpos p < 2 ^ Zpos (digits2_pos p).
Proof.
  induction p as [p IH|p IH|]; cbn [digits2_pos]; [| |reflexivity].
  - rewrite Pos2Z.inj_succ, Z.pow_succ_r by lia. lia.
  - rewrite Pos2Z.inj_succ, Z.pow_succ_r by lia. lia.
Qed.

Lemma Zdigits2_mono a b : 0 < a <= b -> Zdigits2 a <= Zdigits2 b.
Proof.
  intros [Ha Hab]. destruct b as [|b|b]; try lia.
  apply Zdigits2_bound; [cbn; lia|]. cbn [Zdigits2].
  pose proof (digits2_pos_gt b). lia.
Qed.

(** The quotient of two integers, the first at most the second, between two
    integers scaled by [2^g]. *)
Lemma int_true_div_bounded g i p lo hi :
  0 <= g <= 53 -> 0 <= i <= p -> 0 < p ->
  lo * p <= i * 2 ^ g <= hi * p -> hi < 2 ^ 53 ->
  exists t, int_true_div i p = Ok t /\ bounded_by false g lo hi t.
Proof.
  intros Hg Hi Hp [Hlo Hup] Hhi. unfold int_true_div.
  pose proof (pow2_gt0 g ltac:(lia)) as HG.
  replace (p =? 0) with false by (symmetry; apply Z.eqb_neq; lia).
  destruct p as [|b|b]; try lia. destruct i as [|a|a]; try lia.
  - cbn. eexists. split; [reflexivity|]. cbn [bounded_by].
    split; [reflexivity|]. nia.
  - unfold fdiv. cbn [exact_int SFdiv xorb]. unfold SFdiv_core_binary.
    set (e' := Z.min (fexp prec emax
                        (Zdigits2 (Z.pos a) + 0 - (Zdigits2 (Z.pos b) + 0)))
                     (0 - 0)).
    assert (He' : -1074 <= e' <= - 53).
    { pose proof (Zdigits2_mono (Z.pos a) (Z.pos b) ltac:(lia)).
      unfold e', fexp, emin, prec, emax. lia. }
    set (s := 0 - 0 - e').
    set (m' := match s with
               | 0 => Z.pos a
               | Z.pos _ => Z.shiftl (Z.pos a) s
               | Z.neg _ => 0
               end).
    assert (Hm' : m' = Z.pos a * 2 ^ s).
    { unfold m'. destruct s as [|k|k] eqn:Es; [cbn; lia| |lia].
      apply Z.shiftl_mul_pow2. lia. }
    pose proof (Z_div_mod m' (Z.pos b) ltac:(lia)) as Hdiv.
    destruct (Z.div_eucl m' (Z.pos b)) as [q r]. destruct Hdiv as [Hq Hr].
    pose proof (pow2_gt0 (s - g) ltac:(unfold s; lia)) as HW.
    assert (HS : 2 ^ s = 2 ^ (s - g) * 2 ^ g).
    { rewrite <- pow2_split by (unfold s; lia). f_equal. lia. }
    set (W := 2 ^ (s - g)) in *. set (G := 2 ^ g) in *.
    rewrite HS in Hm'.
    assert (Hq0 : 0 <= q) by nia.
    assert (HloW : lo * W * Z.pos b <= m').
    { rewrite Hm'. replace (lo * W * Z.pos b) with ((lo * Z.pos b) * W) by ring.
      replace (Z.pos a * (W * G)) with ((Z.pos a * G) * W) by ring.
      apply Z.mul_le_mono_nonneg_r; lia. }
    assert (HhiW : m' <= hi * W * Z.pos b).
    { rewrite Hm'. replace (hi * W * Z.pos b) with ((hi * Z.pos b) * W) by ring.
      replace (Z.pos a * (W * G)) with ((Z.pos a * G) * W) by ring.
      apply Z.mul_le_mono_nonneg_r; lia. }
    assert (Hb : bounded_by false g lo hi
                   (binary_round_aux prec emax false q e'
                      (new_location (Z.pos b) r))).
    { apply round_aux_bounded; [lia|assumption| |right; right; lia].
      unfold within. replace (- e') with s by (unfold s; lia).
      rewrite HS. fold W G.
      assert (Hl : lo * W <= q).
      { assert (lo * W < q + 1); [|lia].
        apply (mul_cancel_lt _ _ (Z.pos b)); [lia|]. nia. }
      assert (Hu : q + (if loc_inexact (new_location (Z.pos b) r)
                        then 1 else 0) <= hi * W).
      { destruct (loc_inexact (new_location (Z.pos b) r)) eqn:El.
        - apply new_location_inexact in El.
          assert (q < hi * W); [|lia].
          apply (mul_cancel_lt _ _ (Z.pos b)); [lia|]. nia.
        - rewrite Z.add_0_r.
          apply (mul_cancel_le _ _ (Z.pos b)); [lia|]. nia. }
      repeat split; try lia.
      - replace (lo * (W * G)) with ((lo * W) * G) by ring.
        apply Z.mul_le_mono_nonneg_r; lia.
      - replace (hi * (W * G)) with ((hi * W) * G) by ring.
        apply Z.mul_le_mono_nonneg_r; lia. }
    destruct (binary_round_aux prec emax false q e' (new_location (Z.pos b) r));
      try contradiction; eexists; (split; [reflexivity|exact Hb]).
Qed.

Lemma half_bounded : bounded_by false 1 1 1 half.
Proof.
  cbn [bounded_by half]. repeat split; try reflexivity;
    apply Z.leb_le; reflexivity.
Qed.

(** The interpolation parameter lies in [0,1]; it is 0 at the first position
    and 1 at the last one. *)
Lemma ratio_bounded length i :
  2 <= length -> 0 <= i < length ->
  exists t, ratio length i = Ok t /\
            bounded_by false 0 0 1 t /\
            (i = 0 -> bounded_by false 0 0 0 t) /\
            (i = length - 1 -> bounded_by false 0 1 1 t).
Proof.
  intros Hl Hi. unfold ratio.
  replace (length =? 1) with false by (symmetry; apply Z.eqb_neq; lia).
  destruct (Z.eq_dec i 0) as [H0|H0]; [|destruct (Z.eq_dec i (length - 1)) as [H1|H1]].
  - destruct (int_true_div_bounded 0 i (length - 1) 0 0 ltac:(lia)
                ltac:(lia) ltac:(lia) ltac:(change (2 ^ 0) with 1; lia)
                ltac:(reflexivity)) as (t & Ht & Hb).
    exists t. split; [exact Ht|]. split; [|split].
    + eapply bounded_by_weaken; [exact Hb|lia|lia].
    + intros _. exact Hb.
    + intros ?. lia.
  - destruct (int_true_div_bounded 0 i (length - 1) 1 1 ltac:(lia)
                ltac:(lia) ltac:(lia) ltac:(change (2 ^ 0) with 1; lia)
                ltac:(reflexivity)) as (t & Ht & Hb).
    exists t. split; [exact Ht|]. split; [|split].
    + eapply bounded_by_weaken; [exact Hb|lia|lia].
    + intros ?. lia.
    + intros _. exact Hb.
  - destruct (int_true_div_bounded 0 i (length - 1) 0 1 ltac:(lia)
                ltac:(lia) ltac:(lia) ltac:(change (2 ^ 0) with 1; lia)
                ltac:(reflexivity)) as (t & Ht & Hb).
    exists t. split; [exact Ht|]. split; [exact Hb|split]; intros ?; lia.
Qed.

(** The interpolated channel, from bounds on the parameter. *)
Lemma lerp_bounded s e g lot hit t :
  valid_channel s -> valid_channel e -> 0 <= g <= 44 ->
  0 <= lot -> lot <= hit -> hit <= 2 ^ g ->
  bounded_by false g lot hit t ->
  exists v, lerp s e t = Ok v /\
    (s <= e -> (s * 2 ^ g + (e - s) * lot) / 2 ^ g <= v
               <= (s * 2 ^ g + (e - s) * hit) / 2 ^ g) /\
    (e <= s -> (s * 2 ^ g - (s - e) * hit) / 2 ^ g <= v
               <= (s * 2 ^ g - (s - e) * lot) / 2 ^ g).
Proof.
  unfold valid_channel. intros Hs He Hg Hlot Hlh Hhit Ht.
  assert (HG : 0 < 2 ^ g <= 2 ^ 44).
  { split; [apply pow2_gt0; lia|]. apply Z.pow_le_mono_r; lia. }
  assert (H44 : 2 ^ 44 = 17592186044416) by reflexivity.
  assert (H53 : 2 ^ 53 = 9007199254740992) by reflexivity.
  set (G := 2 ^ g) in *.
  unfold lerp, int_mul_float, int_add_float.
  destruct (float_of_int_bounded (e - s)) as (FD & -> & HD); [lia|].
  destruct (float_of_int_bounded s) as (FS & -> & HS); [lia|].
  cbn [bind].
  replace (s <? 0) with false in HS by (symmetry; apply Z.ltb_ge; lia).
  apply (bounded_by_rescale _ _ _ _ g) in HS; [|lia|lia].
  rewrite Z.abs_eq in HS by lia. rewrite Z.add_0_l in HS. fold G in HS.
  assert (Hprod0 : Z.abs (e - s) * hit <= 255 * G).
  { apply Z.mul_le_mono_nonneg; lia. }
  assert (Hprod : Z.abs (e - s) * hit < 2 ^ 53) by lia.
  pose proof (fmul_bounded (e - s <? 0) false 0 g (Z.abs (e - s))
                (Z.abs (e - s)) lot hit FD t ltac:(lia) ltac:(lia) ltac:(lia)
                ltac:(lia) Hlot Hprod HD Ht) as HP.
  rewrite xorb_false_r, Z.add_0_l in HP.
  assert (HsG : 0 <= s * G <= 255 * G) by nia.
  assert (Hlo0 : 0 <= Z.abs (e - s) * lot <= Z.abs (e - s) * hit).
  { split; [apply Z.mul_nonneg_nonneg; lia|].
    apply Z.mul_le_mono_nonneg_l; lia. }
  destruct (Z.ltb_spec (e - s) 0) as [Hneg|Hpos].
  - rewrite Z.abs_neq in HP, Hprod0, Hlo0 by lia.
    assert (H1 : s * G - - (e - s) * lot < 2 ^ 53) by lia.
    assert (H2 : - (e - s) * hit <= s * G).
    { apply Z.le_trans with ((s - e) * G); [|nia].
      replace (- (e - s)) with (s - e) by lia.
      apply Z.mul_le_mono_nonneg_l; lia. }
    pose proof (fadd_bounded_neg g _ _ _ _ FS (fmul FD t) ltac:(lia)
                  H1 H2 HS HP) as HX.
    destruct (int_of_float_bounded g _ _ _ ltac:(lia) HX) as (v & Hv & Hb).
    exists v. split; [exact Hv|]. split; [lia|]. intros _.
    replace (s - e) with (- (e - s)) by lia. exact Hb.
  - rewrite Z.abs_eq in HP, Hprod0, Hlo0 by lia.
    assert (H1 : s * G + (e - s) * hit < 2 ^ 53) by lia.
    pose proof (fadd_bounded_pos g _ _ _ _ FS (fmul FD t) ltac:(lia)
                  H1 HS HP) as HX.
    destruct (int_of_float_bounded g _ _ _ ltac:(lia) HX) as (v & Hv & Hb).
    exists v. split; [exact Hv|]. split; [intros _; exact Hb|].
    intros Hes. assert (e = s) as -> by lia.
    rewrite Z.sub_diag, !Z.mul_0_l, Z.add_0_r, Z.sub_0_r in *. exact Hb.
Qed.

(* ================================================================= *)
(** ** The emitted colors *)

Lemma channel_at_spec s e length i :
  valid_channel s -> valid_channel e -> 1 <= length -> 0 <= i < length ->
  exists v, channel_at s e length i = Ok v /\
    Z.min s e <= v <= Z.max s e /\
    (length = 1 -> v = (s + e) / 2) /\
    (2 <= length -> i = 0 -> v = s) /\
    (2 <= length -> i = length - 1 -> v = e).
Proof.
  intros Hs He Hl Hi. unfold channel_at.
  destruct (Z.eq_dec length 1) as [H1|H1].
  - unfold ratio. rewrite H1. cbn [Z.eqb Pos.eqb bind].
    destruct (lerp_bounded s e 1 1 1 half Hs He ltac:(lia) ltac:(lia)
                ltac:(lia) ltac:(cbn; lia) half_bounded) as (v & Hv & Hle & Hge).
    change (2 ^ 1) with 2 in *. unfold valid_channel in *.
    exists v. split; [exact Hv|].
    assert (v = (s + e) / 2).
    { destruct (Z_le_gt_dec s e) as [C|C].
      - specialize (Hle C). replace (s * 2 + (e - s) * 1) with (s + e) in Hle by lia. lia.
      - specialize (Hge ltac:(lia)).
        replace (s * 2 - (s - e) * 1) with (s + e) in Hge by lia. lia. }
    subst v. repeat split; try lia.
    + apply Z.div_le_lower_bound; lia.
    + apply Z.div_le_upper_bound; lia.
  - destruct (ratio_bounded length i ltac:(lia) Hi) as (t & -> & Hb & H0 & Hlast).
    cbn [bind].
    destruct (lerp_bounded s e 0 0 1 t Hs He ltac:(lia) ltac:(lia)
                ltac:(lia) ltac:(cbn; lia) Hb) as (v & Hv & Hle & Hge).
    change (2 ^ 0) with 1 in *. rewrite !Z.div_1_r in *.
    exists v. split; [exact Hv|]. split; [lia|]. split; [lia|]. split.
    + intros _ Hi0.
      destruct (lerp_bounded s e 0 0 0 t Hs He ltac:(lia) ltac:(lia)
                  ltac:(lia) ltac:(cbn; lia) (H0 Hi0)) as (v' & Hv' & Hle' & Hge').
      change (2 ^ 0) with 1 in *. rewrite !Z.div_1_r in *.
      rewrite Hv in Hv'. inversion Hv'; subst v'. lia.
    + intros _ Hil.
      destruct (lerp_bounded s e 0 1 1 t Hs He ltac:(lia) ltac:(lia)
                  ltac:(lia) ltac:(cbn; lia) (Hlast Hil)) as (v' & Hv' & Hle' & Hge').
      change (2 ^ 0) with 1 in *. rewrite !Z.div_1_r in *.
      rewrite Hv in Hv'. inversion Hv'; subst v'. lia.
Qed.

Lemma channel_at_ratio s e length i v :
  channel_at s e length i = Ok v ->
  exists t, ratio length i = Ok t /\ lerp s e t = Ok v.
Proof.
  unfold channel_at. destruct (ratio length i) as [t|x]; cbn [bind].
  - intros H. now exists t.
  - discriminate.
Qed.

(** Every position gets a color, with channels in [0,255]. *)
Lemma paints_total S E length i :
  valid_color S -> valid_color E -> 1 <= length -> 0 <= i < length ->
  exists col, paints S E length i col /\ valid_color col.
Proof.
  intros (Sr & Sg & Sb) (Er & Eg & Eb) Hl Hi.
  destruct (channel_at_spec _ _ length i Sr Er Hl Hi) as (r & Hr & Br & _).
  destruct (channel_at_spec _ _ length i Sg Eg Hl Hi) as (g & Hg & Bg & _).
  destruct (channel_at_spec _ _ length i Sb Eb Hl Hi) as (b & Hb & Bb & _).
  exists (r, g, b). unfold paints, valid_color, valid_channel in *.
  cbn [red green blue fst snd]. repeat split; try assumption; lia.
Qed.

(* ================================================================= *)
(** ** The rendered line *)

Lemma lit_cons c s : lit (String c s) = N_of_ascii c :: lit s.
Proof. reflexivity. Qed.

Lemma string_of_uint_params d : params (lit (NilEmpty.string_of_uint d)).
Proof.
  unfold params. induction d; cbn [NilEmpty.string_of_uint];
    rewrite ?lit_cons; cbn [forallb]; [reflexivity|..]; rewrite IHd; reflexivity.
Qed.

(** The digits of a non-negative integer are characters of the class. *)
Lemma format_int_params z : 0 <= z -> params (format_int z).
Proof.
  intros Hz. unfold format_int.
  destruct z as [|p|p]; [reflexivity| |lia].
  cbn [Z.to_int NilZero.string_of_int NilZero.string_of_uint].
  destruct (Pos.to_uint p) eqn:E; try apply string_of_uint_params.
  reflexivity.
Qed.

Lemma params_app a b : params a -> params b -> params (a ++ b).
Proof. unfold params. intros Ha Hb. rewrite forallb_app, Ha, Hb. reflexivity. Qed.

Lemma sgr_rgb_csi r g b : sgr_rgb r g b = csi (sgr_params r g b).
Proof.
  unfold sgr_rgb, csi, sgr_params. cbn [app].
  change (lit "[38;2;") with (LBRACKET :: lit "38;2;").
  cbn [app]. do 2 f_equal. rewrite <- !app_assoc. reflexivity.
Qed.

Lemma sgr_params_ok col :
  valid_color col -> params (sgr_params (red col) (green col) (blue col)).
Proof.
  unfold valid_color, valid_channel. intros (Hr & Hg & Hb). unfold sgr_params.
  repeat apply params_app; try reflexivity; apply format_int_params; lia.
Qed.

Lemma render_cons col cols c text :
  render (col :: cols) (c :: text) =
  csi (sgr_params (red col) (green col) (blue col)) ++ c :: render cols text.
Proof. cbn [render]. rewrite sgr_rgb_csi. reflexivity. Qed.

(** What follows a character of the text starts with ESC. *)
Lemma render_boundary cols text rest :
  (exists r, rest = ESC :: r) ->
  exists r, render cols text ++ rest = ESC :: r.
Proof.
  intros Hr. destruct cols as [|col cols], text as [|c text]; try exact Hr.
  rewrite render_cons. eexists. reflexivity.
Qed.

(** Stripping a rendered line gives the text back. *)
Lemma strip_render cols : forall text rest,
  Forall valid_color cols -> List.length cols = List.length text ->
  (exists r, rest = ESC :: r) ->
  strip (render cols text ++ rest) = text ++ strip rest.
Proof.
  induction cols as [|col cols IH]; intros text rest Hv Hlen Hr.
  - destruct text; [reflexivity|discriminate].
  - destruct text as [|c text]; [discriminate|].
    inversion Hv as [|? ? Hc Hv']; subst.
    rewrite render_cons, <- app_assoc, strip_csi by now apply sgr_params_ok.
    rewrite <- !app_comm_cons.
    destruct (render_boundary cols text rest Hr) as (r & Er).
    rewrite Er, strip_keep by apply match_csi_esc_esc.
    rewrite <- Er. rewrite IH; auto.
Qed.

Lemma strip_sgr_reset : strip sgr_reset = [].
Proof. reflexivity. Qed.

(** The loop appends the rendering of what is left of the text. *)
Lemma gradient_loop_spec S E length :
  valid_color S -> valid_color E ->
  forall text i acc, 0 <= i -> i + len text <= length ->
  exists cols,
    gradient_loop S E length i text acc = Ok (acc ++ render cols text) /\
    List.length cols = List.length text /\
    Forall valid_color cols /\
    (forall k col, nth_error cols k = Some col ->
                   paints S E length (i + Z.of_nat k) col).
Proof.
  intros HS HE. induction text as [|c text IH]; intros i acc Hi Hlen.
  - exists []. cbn [gradient_loop render]. rewrite app_nil_r.
    split; [reflexivity|]. split; [reflexivity|]. split; [constructor|].
    intros [|k] ? ?; discriminate.
  - unfold len in Hlen. cbn [List.length] in Hlen. rewrite Nat2Z.inj_succ in Hlen.
    destruct (paints_total S E length i HS HE ltac:(lia) ltac:(lia))
      as (col & Hp & Hv).
    destruct (IH (i + 1) (acc ++ sgr_rgb (red col) (green col) (blue col) ++ [c])
                ltac:(lia) ltac:(unfold len; lia))
      as (cols & Hrun & Hl & Hvs & Hnth).
    exists (col :: cols). split; [|split; [|split]].
    + cbn [gradient_loop]. destruct Hp as (Hr & Hg & Hb).
      unfold channel_at in Hr, Hg, Hb.
      destruct (ratio length i) as [t|x]; cbn [bind] in *; try discriminate.
      rewrite Hr, Hg, Hb. cbn [bind]. rewrite Hrun. f_equal.
      cbn [render]. rewrite <- !app_assoc. reflexivity.
    + cbn [List.length]. now rewrite Hl.
    + now constructor.
    + intros [|k] col' Hk; cbn [nth_error] in Hk.
      * inversion Hk; subst. now rewrite Z.add_0_r.
      * apply Hnth in Hk. rewrite Nat2Z.inj_succ.
        replace (i + Z.succ (Z.of_nat k)) with (i + 1 + Z.of_nat k) by lia.
        exact Hk.
Qed.

(** [gradient_text] returns, for a text that is not empty, the rendering of
    the text in the colors of its positions, and a reset sequence. *)
Lemma gradient_text_spec self text use_alt :
  valid_ui self -> text <> [] ->
  exists cols,
    gradient_text self text use_alt = Ok (render cols text ++ sgr_reset) /\
    List.length cols = List.length text /\
    Forall valid_color cols /\
    (forall k col, nth_error cols k = Some col ->
       paints (start_of self use_alt) (end_of self use_alt) (len text)
              (Z.of_nat k) col).
Proof.
  intros (V1 & V2 & V3 & V4) Hne. unfold gradient_text, start_of, end_of.
  assert (Hlen : (len text =? 0) = false).
  { apply Z.eqb_neq. unfold len. destruct text; [congruence|]. cbn [List.length]. lia. }
  destruct use_alt.
  - rewrite Hlen.
    destruct (gradient_loop_spec (alt_start self) (alt_end self) (len text)
                V3 V4 text 0 [] ltac:(lia) ltac:(lia))
      as (cols & Hrun & Hl & Hv & Hn).
    exists cols. rewrite Hrun. cbn [bind app]. auto.
  - rewrite Hlen.
    destruct (gradient_loop_spec (color_start self) (color_end self) (len text)
                V1 V2 text 0 [] ltac:(lia) ltac:(lia))
      as (cols & Hrun & Hl & Hv & Hn).
    exists cols. rewrite Hrun. cbn [bind app]. auto.
Qed.

Lemma gradient_text_nil self use_alt : gradient_text self [] use_alt = Ok [].
Proof. unfold gradient_text. destruct use_alt; reflexivity. Qed.

(** Stripping the result of [gradient_text] gives the text back. *)
Lemma strip_gradient_text self text use_alt :
  valid_ui self ->
  exists out, gradient_text self text use_alt = Ok out /\ strip out = text.
Proof.
  intros Hv. destruct text as [|c text].
  - exists []. split; [apply gradient_text_nil|reflexivity].
  - destruct (gradient_text_spec self (c :: text) use_alt Hv ltac:(discriminate))
      as (cols & Hrun & Hl & Hvs & _).
    eexists. split; [exact Hrun|].
    rewrite strip_render; auto.
    + rewrite strip_sgr_reset. apply app_nil_r.
    + eexists. reflexivity.
Qed.

(* ================================================================= *)
(** ** Counting the sequences of a line *)

Section Counting.

(** A recognizer of sequences: it holds only where ESC stands, and not
    where ESC is followed by ESC. *)
Variable f : str -> bool.
Hypothesis f_head : forall c l, c <> ESC -> f (c :: l) = false.
Hypothesis f_esc_esc : forall c l, f (c :: ESC :: l) = false.

Lemma count_at_cons c l :
  count_at f (c :: l) = ((if f (c :: l) then 1 else 0) + count_at f l)%nat.
Proof. reflexivity. Qed.

Lemma count_at_no_esc x y :
  (forall c, In c x -> c <> ESC) -> count_at f (x ++ y) = count_at f y.
Proof.
  induction x as [|c x IH]; intros H; [reflexivity|].
  rewrite <- app_comm_cons, count_at_cons.
  rewrite f_head by (apply H; now left).
  rewrite IH; [reflexivity|]. intros d Hd. apply H. now right.
Qed.

Lemma count_at_seq ps rest :
  params ps ->
  count_at f (csi ps ++ rest) =
  ((if f (csi ps ++ rest) then 1 else 0) + count_at f rest)%nat.
Proof.
  intros H. rewrite csi_app at 1. rewrite count_at_cons, <- csi_app.
  f_equal.
  change (LBRACKET :: ps ++ LOWER_M :: rest)
    with ((LBRACKET :: ps) ++ LOWER_M :: rest).
  rewrite count_at_no_esc.
  - rewrite count_at_cons, f_head by discriminate. reflexivity.
  - intros c [<-|Hc]; [discriminate|].
    apply is_param_not_esc. unfold params in H.
    rewrite forallb_forall in H. now apply H.
Qed.

Lemma count_at_keep c l : count_at f (c :: ESC :: l) = count_at f (ESC :: l).
Proof.
  now rewrite count_at_cons, f_esc_esc.
Qed.

(** On a rendered line, [f] can hold at the color-set sequences only. *)
Lemma count_at_render (b : bool) :
  (forall col X, valid_color col ->
     f (csi (sgr_params (red col) (green col) (blue col)) ++ X) = b) ->
  forall cols text rest,
  Forall valid_color cols -> List.length cols = List.length text ->
  (exists r, rest = ESC :: r) ->
  count_at f (render cols text ++ rest) =
  ((if b then List.length text else 0) + count_at f rest)%nat.
Proof.
  intros Hb. induction cols as [|col cols IH]; intros text rest Hv Hlen Hr.
  - destruct text; [destruct b; reflexivity|discriminate].
  - destruct text as [|c text]; [discriminate|].
    inversion Hv as [|? ? Hc Hv']; subst.
    rewrite render_cons, <- app_assoc, count_at_seq by now apply sgr_params_ok.
    rewrite Hb by assumption. rewrite <- !app_comm_cons.
    destruct (render_boundary cols text rest Hr) as (r & Er).
    rewrite Er, count_at_keep, <- Er, IH; auto.
    destruct b; cbn [List.length]; lia.
Qed.

End Counting.

Lemma csi_at_head c l : c <> ESC -> csi_at (c :: l) = false.
Proof. intros H. unfold csi_at. now rewrite match_csi_head. Qed.

Lemma csi_at_esc_esc c l : csi_at (c :: ESC :: l) = false.
Proof. unfold csi_at. now rewrite match_csi_esc_esc. Qed.

Lemma csi_at_csi ps X : params ps -> csi_at (csi ps ++ X) = true.
Proof. intros H. unfold csi_at. now rewrite match_csi_complete. Qed.

Lemma color_set_at_head c l : c <> ESC -> color_set_at (c :: l) = false.
Proof. intros H. unfold color_set_at. now rewrite csi_at_head. Qed.

Lemma color_set_at_esc_esc c l : color_set_at (c :: ESC :: l) = false.
Proof. unfold color_set_at. now rewrite csi_at_esc_esc. Qed.

Lemma color_set_at_sgr col X :
  valid_color col ->
  color_set_at (csi (sgr_params (red col) (green col) (blue col)) ++ X) = true.
Proof.
  intros H. unfold color_set_at.
  rewrite csi_at_csi by now apply sgr_params_ok. reflexivity.
Qed.

Lemma reset_at_head c l : c <> ESC -> reset_at (c :: l) = false.
Proof.
  intros H. unfold reset_at. change sgr_reset with (ESC :: lit "[0m").
  cbn [starts_with]. destruct (ESC =? c)%N eqn:E; [|reflexivity].
  apply N.eqb_eq in E. congruence.
Qed.

Lemma reset_at_esc_esc c l : reset_at (c :: ESC :: l) = false.
Proof.
  unfold reset_at. change sgr_reset with (ESC :: LBRACKET :: lit "0m").
  cbn [starts_with]. change (LBRACKET =? ESC)%N with false.
  now rewrite andb_false_r.
Qed.

Lemma reset_at_sgr col X :
  reset_at (csi (sgr_params (red col) (green col) (blue col)) ++ X) = false.
Proof. reflexivity. Qed.

(* ================================================================= *)
(** ** Box lines *)

Lemma str_eqb_eq a : forall b, str_eqb a b = true <-> a = b.
Proof.
  induction a as [|x a IH]; intros [|y b]; cbn [str_eqb]; split;
    try discriminate; try reflexivity.
  - intros H. apply andb_true_iff in H as [H1 H2].
    apply N.eqb_eq in H1. apply IH in H2. congruence.
  - intros H. inversion H; subst. rewrite N.eqb_refl. cbn. now apply IH.
Qed.

Lemma str_eqb_neq a b : a <> b -> str_eqb a b = false.
Proof.
  intros H. destruct (str_eqb a b) eqn:E; [|reflexivity].
  apply str_eqb_eq in E. contradiction.
Qed.

Lemma str_mul_repeat c n : str_mul [c] n = repeat c (Z.to_nat n).
Proof.
  unfold str_mul. destruct (Z.leb_spec n 0) as [H|H].
  - replace (Z.to_nat n) with O by lia. reflexivity.
  - induction (Z.to_nat n) as [|k IH]; [reflexivity|].
    cbn [repeat List.concat app]. now rewrite IH.
Qed.

Lemma len_app a b : len (a ++ b) = len a + len b.
Proof. unfold len. rewrite length_app. lia. Qed.

Lemma len_repeat (c : codepoint) k : len (repeat c k) = Z.of_nat k.
Proof. unfold len. now rewrite repeat_length. Qed.

Lemma len_cons (c : codepoint) l : len (c :: l) = 1 + len l.
Proof. unfold len. cbn [List.length]. lia. Qed.

(** A border line, once stripped. *)
Lemma str_mul_any_ok s n : - 2 ^ 63 <= n -> str_mul_any s n = Ok (str_mul s n).
Proof.
  intros H. unfold str_mul_any.
  now replace (n <? - 2 ^ 63) with false by (symmetry; apply Z.ltb_ge; lia).
Qed.

Lemma str_mul_any_overflow s n : n < - 2 ^ 63 -> str_mul_any s n = Raise OverflowError.
Proof.
  intros H. unfold str_mul_any.
  now replace (n <? - 2 ^ 63) with true by (symmetry; apply Z.ltb_lt; lia).
Qed.

Lemma box_line_eq self l f r w :
  - 2 ^ 63 <= w - 2 ->
  box_line self [l] [f] [r] w
  = gradient_text self ([l] ++ repeat f (Z.to_nat (w - 2)) ++ [r]) false.
Proof.
  intros Hw. unfold box_line. rewrite str_mul_any_ok by assumption.
  cbn [bind]. now rewrite str_mul_repeat.
Qed.

Lemma box_line_strip self l f r w :
  valid_ui self -> - 2 ^ 63 <= w - 2 ->
  exists out, box_line self [l] [f] [r] w = Ok out /\
              strip out = [l] ++ repeat f (Z.to_nat (w - 2)) ++ [r].
Proof.
  intros Hv Hw. rewrite box_line_eq by assumption.
  apply strip_gradient_text. exact Hv.
Qed.

(** A centered row, once stripped. *)
Lemma box_row_center_strip self text w :
  valid_ui self ->
  exists out,
    box_row self text w (lit "center") = Ok out /\
    strip out =
      [BOX_V]
      ++ repeat SPACE (Z.to_nat ((w - 2 - len (strip text)) / 2))
      ++ strip text
      ++ repeat SPACE (Z.to_nat (w - 2 - len (strip text)
                                 - (w - 2 - len (strip text)) / 2))
      ++ [BOX_V].
Proof.
  intros Hv. unfold box_row.
  replace (str_eqb (lit "center") (lit "center")) with true by reflexivity.
  rewrite !str_mul_repeat.
  rewrite !Z2Nat.inj_max. change (Z.to_nat 0) with O. rewrite !Nat.max_0_r.
  apply strip_gradient_text. exact Hv.
Qed.

(** A row with any other alignment, once stripped. *)
Lemma box_row_left_strip self text w align :
  valid_ui self -> align <> lit "center" ->
  exists out,
    box_row self text w align = Ok out /\
    strip out =
      [BOX_V] ++ repeat SPACE 1 ++ strip text
      ++ repeat SPACE (Z.to_nat (w - 2 - len (strip text) - 1))
      ++ [BOX_V].
Proof.
  intros Hv Ha. unfold box_row. rewrite (str_eqb_neq _ _ Ha).
  rewrite !str_mul_repeat.
  rewrite !Z2Nat.inj_max. change (Z.to_nat 0) with O. rewrite !Nat.max_0_r.
  apply strip_gradient_text. exact Hv.
Qed.

(* ================================================================= *)
(** ** Further facts used by the claims *)

Lemma unterminated_csi_free ps : params ps -> csi_free (ESC :: LBRACKET :: ps).
Proof.
  intros Hps a qs b Hqs E.
  assert (Hin : In LOWER_M (ESC :: LBRACKET :: ps)).
  { rewrite E. apply in_or_app. right. apply in_or_app. left.
    unfold csi. right. right. apply in_or_app. right. now left. }
  destruct Hin as [H|[H|H]]; try discriminate.
  unfold params in Hps. rewrite forallb_forall in Hps.
  apply Hps in H. discriminate.
Qed.

Lemma exact_channel_single s e i : exact_channel s e 1 i = (s + e) / 2.
Proof. unfold exact_channel. cbn [Z.eqb Pos.eqb]. f_equal. lia. Qed.

Lemma exact_channel_first s e n : 2 <= n -> exact_channel s e n 0 = s.
Proof.
  intros H. unfold exact_channel.
  replace (n =? 1) with false by (symmetry; apply Z.eqb_neq; lia).
  rewrite Z.mul_0_r, Z.add_0_r. apply Z.div_mul. lia.
Qed.

Lemma exact_channel_last s e n : 2 <= n -> exact_channel s e n (n - 1) = e.
Proof.
  intros H. unfold exact_channel.
  replace (n =? 1) with false by (symmetry; apply Z.eqb_neq; lia).
  replace (s * (n - 1) + (e - s) * (n - 1)) with (e * (n - 1)) by ring.
  apply Z.div_mul. lia.
Qed.

(** In a text of at most [2^36 + 1] characters, the emitted channel is the
    floor of the exact value, or one less. *)
Lemma channel_at_near s e n i v :
  valid_channel s -> valid_channel e -> 2 <= n <= 2 ^ 36 + 1 -> 0 <= i < n ->
  channel_at s e n i = Ok v ->
  exact_channel s e n i - 1 <= v <= exact_channel s e n i.
Proof.
  intros Hs He Hn Hi Hv.
  destruct (Z.eq_dec i (n - 1)) as [Hlast|Hlast].
  - destruct (channel_at_spec s e n i Hs He ltac:(lia) Hi)
      as (v' & Hv' & _ & _ & _ & Hl).
    rewrite Hv in Hv'. inversion Hv'; subst v'.
    rewrite (Hl ltac:(lia) Hlast), Hlast, exact_channel_last by lia. lia.
  - unfold channel_at, ratio in Hv.
    replace (n =? 1) with false in Hv by (symmetry; apply Z.eqb_neq; lia).
    unfold exact_channel.
    replace (n =? 1) with false by (symmetry; apply Z.eqb_neq; lia).
    set (p := n - 1) in *.
    assert (H36 : 2 ^ 36 = 68719476736) by reflexivity.
    assert (H44 : 2 ^ 44 = 17592186044416) by reflexivity.
    assert (H53 : 2 ^ 53 = 9007199254740992) by reflexivity.
    assert (Hp : 0 < p <= 68719476736) by lia.
    set (G := 2 ^ 44) in *.
    set (lo := (i * G) / p).
    pose proof (Z.mul_div_le (i * G) p ltac:(lia)) as Hlo1.
    pose proof (Z.mul_succ_div_gt (i * G) p ltac:(lia)) as Hlo2.
    fold lo in Hlo1, Hlo2.
    assert (Hlo0 : 0 <= lo) by (apply Z.div_pos; nia).
    assert (HloG : lo < G).
    { apply Z.div_lt_upper_bound; [lia|]. nia. }
    destruct (int_true_div_bounded 44 i p lo (lo + 1) ltac:(lia) ltac:(lia)
                ltac:(lia) ltac:(fold G; lia) ltac:(lia))
      as (t & Ht & Hb).
    rewrite Ht in Hv. cbn [bind] in Hv.
    destruct (lerp_bounded s e 44 lo (lo + 1) t Hs He ltac:(lia) Hlo0
                ltac:(lia) ltac:(fold G; lia) Hb) as (v' & Hv' & Hle & Hge).
    rewrite Hv in Hv'. inversion Hv'; subst v'. clear Hv'.
    fold G in Hle, Hge. unfold valid_channel in *.
    set (F := (s * p + (e - s) * i) / p).
    pose proof (Z.mul_div_le (s * p + (e - s) * i) p ltac:(lia)) as HF1.
    pose proof (Z.mul_succ_div_gt (s * p + (e - s) * i) p ltac:(lia)) as HF2.
    fold F in HF1, HF2.
    destruct (Z_le_gt_dec s e) as [C|C].
    + specialize (Hle C). clear Hge. set (D := e - s) in *.
      assert (HD : 0 <= D <= 255) by (unfold D; lia).
      split.
      * apply Z.le_trans with ((s * G + D * lo) / G); [|lia].
        apply Z.div_le_lower_bound; [lia|].
        apply (mul_cancel_le _ _ p); [lia|]. nia.
      * apply Z.le_trans with ((s * G + D * (lo + 1)) / G); [lia|].
        assert ((s * G + D * (lo + 1)) / G < F + 1); [|lia].
        apply Z.div_lt_upper_bound; [lia|].
        apply (mul_cancel_lt _ _ p); [lia|]. nia.
    + specialize (Hge ltac:(lia)). clear Hle. set (A := s - e) in *.
      assert (HA : 0 < A <= 255) by (unfold A; lia).
      replace (e - s) with (- A) in * by (unfold A; lia).
      split.
      * apply Z.le_trans with ((s * G - A * (lo + 1)) / G); [|lia].
        apply Z.div_le_lower_bound; [lia|].
        apply (mul_cancel_le _ _ p); [lia|]. nia.
      * apply Z.le_trans with ((s * G - A * lo) / G); [lia|].
        assert ((s * G - A * lo) / G < F + 1); [|lia].
        apply Z.div_lt_upper_bound; [lia|].
        apply (mul_cancel_lt _ _ p); [lia|]. nia.
Qed.

(** What the check [agrees] establishes. *)
Lemma agrees_spec s e length i :
  agrees s e length = true -> 0 <= i < length ->
  channel_at s e length i = Ok (exact_channel s e length i).
Proof.
  unfold agrees. rewrite forallb_forall. intros H Hi.
  specialize (H i). destruct (channel_at s e length i) as [v|x].
  - f_equal. apply Z.eqb_eq. apply H.
    apply in_map_iff. exists (Z.to_nat i). split; [lia|].
    apply in_seq. lia.
  - exfalso. assert (false = true); [|discriminate]. apply H.
    apply in_map_iff. exists (Z.to_nat i). split; [lia|].
    apply in_seq. lia.
Qed.

Lemma engine_agrees_spec self n use_alt length i (ch : color -> Z) :
  engine_agrees self n = true ->
  ch = red \/ ch = green \/ ch = blue ->
  1 <= length <= Z.of_nat n -> 0 <= i < length ->
  channel_at (ch (start_of self use_alt)) (ch (end_of self use_alt)) length i
  = Ok (exact_channel (ch (start_of self use_alt)) (ch (end_of self use_alt))
          length i).
Proof.
  unfold engine_agrees. rewrite forallb_forall. intros H Hch Hl Hi.
  specialize (H (Z.to_nat length)). rewrite Z2Nat.id in H by lia.
  assert (Hin : In (Z.to_nat length) (seq 1 n)) by (apply in_seq; lia).
  apply H in Hin. unfold gradient_agrees in Hin.
  rewrite !andb_true_iff in Hin.
  destruct Hin as [[[Ar Ag] Ab] [[Br Bg] Bb]].
  apply agrees_spec; [|assumption].
  destruct use_alt, Hch as [->|[->| ->]]; cbn [start_of end_of]; assumption.
Qed.

Lemma moon_ui_agrees : engine_agrees moon_ui 80 = true.
Proof. vm_compute. reflexivity. Qed.

(* ================================================================= *)
(** ** The claims *)

(** C1: for every non-empty text [T] of [n] characters, and an engine whose
    colors are in [0,255], [gradient_text] returns [n] color-set sequences,
    each one immediately before the character of [T] of its rank, followed by
    one reset sequence at the end; the result holds [n] color-set sequences,
    one reset sequence and no other escape sequence, and stripping it gives
    [T] back unchanged.  For the empty text it returns the empty string,
    without a reset sequence. *)
Theorem C1_gradient_text_layout (self : MoonUI) (T : str) (use_alt : bool) :
  valid_ui self ->
  (T <> [] ->
   exists cols out,
     gradient_text self T use_alt = Ok out /\
     List.length cols = List.length T /\
     Forall valid_color cols /\
     out = render cols T ++ sgr_reset /\
     count_at color_set_at out = List.length T /\
     count_at reset_at out = 1%nat /\
     count_at csi_at out = S (List.length T) /\
     strip out = T) /\
  gradient_text self [] use_alt = Ok [].
Proof.
  intros Hv. split; [|apply gradient_text_nil].
  intros Hne.
  destruct (gradient_text_spec self T use_alt Hv Hne)
    as (cols & Hrun & Hl & Hvs & _).
  assert (Hb : exists r, sgr_reset = ESC :: r) by (eexists; reflexivity).
  exists cols, (render cols T ++ sgr_reset).
  repeat (split; [first [assumption|reflexivity]|]).
  split; [|split; [|split]].
  - rewrite (count_at_render color_set_at color_set_at_head
               color_set_at_esc_esc true) by auto using color_set_at_sgr.
    change (count_at color_set_at sgr_reset) with O. lia.
  - rewrite (count_at_render reset_at reset_at_head reset_at_esc_esc false)
      by auto using reset_at_sgr.
    reflexivity.
  - rewrite (count_at_render csi_at csi_at_head csi_at_esc_esc true);
      auto.
    + change (count_at csi_at sgr_reset) with 1%nat. lia.
    + intros col X Hc. apply csi_at_csi. now apply sgr_params_ok.
  - rewrite strip_render by auto. rewrite strip_sgr_reset. apply app_nil_r.
Qed.

Lemma C1_gradient_text_layout_witness :
  valid_ui moon_ui /\ lit "AB" <> [] /\
  exists cols out,
    gradient_text moon_ui (lit "AB") false = Ok out /\
    List.length cols = List.length (lit "AB") /\
    Forall valid_color cols /\
    out = render cols (lit "AB") ++ sgr_reset /\
    count_at color_set_at out = List.length (lit "AB") /\
    count_at reset_at out = 1%nat /\
    count_at csi_at out = S (List.length (lit "AB")) /\
    strip out = lit "AB".
Proof.
  assert (Hv : valid_ui moon_ui).
  { unfold valid_ui, valid_color, valid_channel. cbn. repeat split; lia. }
  assert (Hne : lit "AB" <> []) by (cbn; discriminate).
  split; [exact Hv|]. split; [exact Hne|].
  exact (proj1 (C1_gradient_text_layout moon_ui (lit "AB") false Hv) Hne).
Defined.

(** C2, as stated, fails: with left alignment, a content that fills the
    inner width exactly makes the line one character too long:
    [box_row("ab", 4, "left")] has five visible characters. *)
Lemma C2_counterexample :
  exists out,
    box_row moon_ui (lit "ab") 4 (lit "left") = Ok out /\
    len (strip (lit "ab")) <= 4 - 2 /\
    len (strip out) <> 4.
Proof.
  eexists. split; [vm_compute; reflexivity|]. split; vm_compute; discriminate.
Qed.

(** C2, amended: once stripped, a line has exactly [w] visible characters
    - for [box_top], [box_mid], [box_bot] and [box_empty], when [2 <= w];
    - for [box_row] with center alignment, when the stripped content has at
      most [w - 2] characters;
    - for [box_row] with left alignment (any alignment other than center),
      when the stripped content has at most [w - 3] characters. *)
Theorem C2_box_lines_width (self : MoonUI) (w : Z) (text align : str) :
  valid_ui self ->
  (2 <= w ->
   (exists out, box_top self w = Ok out /\ len (strip out) = w) /\
   (exists out, box_mid self w = Ok out /\ len (strip out) = w) /\
   (exists out, box_bot self w = Ok out /\ len (strip out) = w) /\
   (exists out, box_empty self w = Ok out /\ len (strip out) = w)) /\
  (len (strip text) <= w - 2 ->
   exists out, box_row self text w (lit "center") = Ok out /\
               len (strip out) = w) /\
  (align <> lit "center" -> len (strip text) <= w - 3 ->
   exists out, box_row self text w align = Ok out /\ len (strip out) = w).
Proof.
  intros Hv. split; [|split].
  - intros Hw. repeat split.
    + destruct (box_line_strip self BOX_TL BOX_H BOX_TR w Hv ltac:(lia))
        as (out & H & Hs).
      exists out. split; [exact H|]. rewrite Hs.
      rewrite !len_app, len_repeat, !len_cons. unfold len. cbn [List.length]. lia.
    + destruct (box_line_strip self BOX_ML BOX_H BOX_MR w Hv ltac:(lia))
        as (out & H & Hs).
      exists out. split; [exact H|]. rewrite Hs.
      rewrite !len_app, len_repeat, !len_cons. unfold len. cbn [List.length]. lia.
    + destruct (box_line_strip self BOX_BL BOX_H BOX_BR w Hv ltac:(lia))
        as (out & H & Hs).
      exists out. split; [exact H|]. rewrite Hs.
      rewrite !len_app, len_repeat, !len_cons. unfold len. cbn [List.length]. lia.
    + destruct (box_row_center_strip self [] w Hv) as (out & H & Hs).
      exists out. split; [exact H|]. rewrite Hs. rewrite strip_nil.
      rewrite !len_app, !len_repeat, !len_cons. unfold len. cbn [List.length].
      pose proof (Z.div_mod (w - 2 - 0) 2 ltac:(lia)).
      pose proof (Z.mod_pos_bound (w - 2 - 0) 2 ltac:(lia)).
      change (Z.of_nat 0) with 0. lia.
  - intros Hc. destruct (box_row_center_strip self text w Hv) as (out & H & Hs).
    exists out. split; [exact H|]. rewrite Hs.
    rewrite !len_app, !len_repeat, !len_cons.
    pose proof (Z.div_mod (w - 2 - len (strip text)) 2 ltac:(lia)).
    pose proof (Z.mod_pos_bound (w - 2 - len (strip text)) 2 ltac:(lia)).
    change (len []) with 0. lia.
  - intros Ha Hc.
    destruct (box_row_left_strip self text w align Hv Ha) as (out & H & Hs).
    exists out. split; [exact H|]. rewrite Hs.
    rewrite !len_app, !len_repeat, !len_cons.
    change (len []) with 0. lia.
Qed.

Lemma C2_box_lines_width_witness :
  valid_ui moon_ui /\ 2 <= 10 /\ len (strip (lit "hi")) <= 10 - 2 /\
  lit "left" <> lit "center" /\ len (strip (lit "hi")) <= 10 - 3 /\
  (exists out, box_top moon_ui 10 = Ok out /\ len (strip out) = 10) /\
  (exists out, box_row moon_ui (lit "hi") 10 (lit "center") = Ok out /\
               len (strip out) = 10) /\
  (exists out, box_row moon_ui (lit "hi") 10 (lit "left") = Ok out /\
               len (strip out) = 10).
Proof.
  assert (Hv : valid_ui moon_ui).
  { unfold valid_ui, valid_color, valid_channel. cbn. repeat split; lia. }
  assert (H1 : 2 <= 10) by lia.
  assert (H2 : len (strip (lit "hi")) <= 10 - 2) by (vm_compute; discriminate).
  assert (H3 : lit "left" <> lit "center") by (vm_compute; discriminate).
  assert (H4 : len (strip (lit "hi")) <= 10 - 3) by (vm_compute; discriminate).
  pose proof (C2_box_lines_width moon_ui 10 (lit "hi") (lit "left") Hv)
    as (Hb & Hc & Hl).
  repeat (split; [assumption|]). split; [|split].
  - exact (proj1 (Hb H1)).
  - exact (Hc H2).
  - exact (Hl H3 H4).
Defined.

(** C3, as stated, fails: stripping the six characters ESC ESC [ m [ m
    leaves ESC [ m, a complete sequence, which a second pass removes. *)
Lemma C3_counterexample : ~ (forall X : str, strip (strip X) = strip X).
Proof.
  intros H.
  specialize (H [ESC; ESC; LBRACKET; LOWER_M; LBRACKET; LOWER_M]).
  vm_compute in H. discriminate.
Qed.

(** C3, amended: [strip (strip X) = strip X] holds exactly when no complete
    escape sequence occurs in [strip X]; in particular for
    [X = gradient_text T] when no complete sequence occurs in [T]. *)
Theorem C3_strip_idempotent_iff :
  (forall X, strip (strip X) = strip X <-> csi_free (strip X)) /\
  (forall self T use_alt,
     valid_ui self -> csi_free T ->
     exists X, gradient_text self T use_alt = Ok X /\
               strip (strip X) = strip X).
Proof.
  split.
  - intros X. symmetry. apply strip_csi_free.
  - intros self T use_alt Hv Hf.
    destruct (strip_gradient_text self T use_alt Hv) as (X & HX & Hs).
    exists X. split; [exact HX|]. rewrite Hs. now apply strip_csi_free.
Qed.

Lemma C3_strip_idempotent_iff_witness :
  valid_ui moon_ui /\ csi_free (lit "AB") /\
  exists X, gradient_text moon_ui (lit "AB") false = Ok X /\
            strip (strip X) = strip X.
Proof.
  assert (Hv : valid_ui moon_ui).
  { unfold valid_ui, valid_color, valid_channel. cbn. repeat split; lia. }
  assert (Hf : csi_free (lit "AB")).
  { apply strip_csi_free. reflexivity. }
  split; [exact Hv|]. split; [exact Hf|].
  exact (proj2 C3_strip_idempotent_iff moon_ui (lit "AB") false Hv Hf).
Defined.

(** C4, as stated, fails: the channel is computed in double precision, and
    its truncation is not always the floor of the exact value.  In a text of
    eleven characters between 0 and 90, the channel at position 7 is 62,
    where [floor(0 + 90 * 7 / 10)] is 63. *)
Lemma C4_counterexample :
  exists cols,
    gradient_text (engine (0, 0, 0) (90, 90, 90)) (lit "abcdefghijk") false
    = Ok (render cols (lit "abcdefghijk") ++ sgr_reset) /\
    nth_error cols 7 = Some (62, 62, 62) /\
    exact_channel 0 90 (len (lit "abcdefghijk")) 7 = 63.
Proof.
  exists [(0, 0, 0); (9, 9, 9); (18, 18, 18); (27, 27, 27); (36, 36, 36);
          (45, 45, 45); (54, 54, 54); (62, 62, 62); (72, 72, 72);
          (81, 81, 81); (90, 90, 90)].
  split; [vm_compute; reflexivity|]. split; reflexivity.
Qed.

(** C4, amended: the interpolation parameter is 0.5 when [n == 1] and the
    double nearest to [i / (n - 1)] otherwise; each emitted channel is
    [start[c] + (end[c] - start[c]) * t] evaluated in double precision and
    truncated by the integer cast.  It lies between [start[c]] and [end[c]].
    It is the floor of the exact value, or one less (for a text of at most
    [2^36 + 1] characters); it is that floor when [n == 1], at the first
    position (where it is [start[c]]), at the last one (where it is
    [end[c]]) and, for the two gradients of the engine, at every position of
    a text of at most 80 characters.  [gradient_text] on ["X"] between
    (10,20,30) and (90,80,70) colors the character (50,50,50). *)
Theorem C4_channel_interpolation (self : MoonUI) (T : str) (use_alt : bool) :
  valid_ui self -> T <> [] ->
  (exists cols,
     gradient_text self T use_alt = Ok (render cols T ++ sgr_reset) /\
     forall k col, nth_error cols k = Some col ->
     forall ch : color -> Z, ch = red \/ ch = green \/ ch = blue ->
       let s := ch (start_of self use_alt) in
       let e := ch (end_of self use_alt) in
       let n := len T in
       let i := Z.of_nat k in
       (exists t, (if n =? 1 then Ok half else int_true_div i (n - 1)) = Ok t /\
                  (p <- int_mul_float (e - s) t ;;
                   x <- int_add_float s p ;;
                   int_of_float x) = Ok (ch col)) /\
       Z.min s e <= ch col <= Z.max s e /\
       (n = 1 -> ch col = (s + e) / 2) /\
       (2 <= n -> i = 0 -> ch col = s) /\
       (2 <= n -> i = n - 1 -> ch col = e) /\
       (n <= 2 ^ 36 + 1 ->
        exact_channel s e n i - 1 <= ch col <= exact_channel s e n i) /\
       (n = 1 \/ i = 0 \/ i = n - 1 -> ch col = exact_channel s e n i) /\
       (self = moon_ui -> n <= 80 -> ch col = exact_channel s e n i)) /\
  gradient_text (engine (10, 20, 30) (90, 80, 70)) (lit "X") false
  = Ok (sgr_rgb 50 50 50 ++ lit "X" ++ sgr_reset).
Proof.
  intros Hv Hne. split; [|vm_compute; reflexivity].
  destruct (gradient_text_spec self T use_alt Hv Hne)
    as (cols & Hrun & Hl & Hvs & Hp).
  exists cols. split; [exact Hrun|].
  intros k col Hk ch Hch s e n i.
  assert (Hlt : (k < List.length cols)%nat).
  { apply nth_error_Some. congruence. }
  assert (Hi : 0 <= i < n) by (unfold i, n, len; lia).
  assert (Hpc : channel_at s e n i = Ok (ch col)).
  { destruct (Hp k col Hk) as (Pr & Pg & Pb).
    destruct Hch as [->|[->| ->]]; assumption. }
  assert (Hvc : valid_channel s /\ valid_channel e).
  { destruct Hv as (V1 & V2 & V3 & V4). unfold s, e, start_of, end_of.
    destruct use_alt, Hch as [->|[->| ->]];
      unfold valid_color in *; tauto. }
  destruct Hvc as [Vs Ve].
  destruct (channel_at_spec s e n i Vs Ve ltac:(lia) Hi)
    as (v & Hvch & Hrange & H1 & H0 & Hlast).
  rewrite Hpc in Hvch. inversion Hvch; subst v. clear Hvch.
  split; [|split; [exact Hrange|split; [exact H1|split; [exact H0|split;
         [exact Hlast|split; [|split]]]]]].
  - destruct (channel_at_ratio s e n i (ch col) Hpc) as (t & Ht & Hlerp).
    exists t. split; [exact Ht|exact Hlerp].
  - intros Hn. destruct (Z.eq_dec n 1) as [Hn1|Hn1].
    + rewrite (H1 Hn1), Hn1, exact_channel_single. lia.
    + apply channel_at_near; try assumption. lia.
  - intros [Hn|[Hi0|Hil]].
    + rewrite (H1 Hn). rewrite Hn. symmetry. apply exact_channel_single.
    + destruct (Z.eq_dec n 1) as [Hn|Hn].
      * rewrite (H1 Hn). rewrite Hn. symmetry. apply exact_channel_single.
      * rewrite (H0 ltac:(lia) Hi0), Hi0. symmetry.
        apply exact_channel_first. lia.
    + destruct (Z.eq_dec n 1) as [Hn|Hn].
      * rewrite (H1 Hn). rewrite Hn. symmetry. apply exact_channel_single.
      * rewrite (Hlast ltac:(lia) Hil), Hil. symmetry.
        apply exact_channel_last. lia.
  - intros -> Hn.
    pose proof (engine_agrees_spec moon_ui 80 use_alt n i ch moon_ui_agrees
                  Hch ltac:(lia) Hi) as Ha.
    fold s e in Ha. rewrite Hpc in Ha. now inversion Ha.
Qed.

Lemma C4_channel_interpolation_witness :
  valid_ui moon_ui /\ lit "AB" <> [] /\
  gradient_text (engine (10, 20, 30) (90, 80, 70)) (lit "X") false
  = Ok (sgr_rgb 50 50 50 ++ lit "X" ++ sgr_reset).
Proof.
  assert (Hv : valid_ui moon_ui).
  { unfold valid_ui, valid_color, valid_channel. cbn. repeat split; lia. }
  assert (Hne : lit "AB" <> []) by (cbn; discriminate).
  split; [exact Hv|]. split; [exact Hne|].
  exact (proj2 (C4_channel_interpolation moon_ui (lit "AB") false Hv Hne)).
Defined.

(** C5: [box_row(text, width, center)] pads the stripped text [clean] with
    [pad_left = floor((inner - len(clean)) / 2)] spaces on the left and
    [pad_right = inner - len(clean) - pad_left] spaces on the right, where
    [inner = width - 2] (a negative count gives no space); and
    [box_row("hi", 10, center)], once stripped, is the border, three spaces,
    [hi], three spaces, the border: ten visible characters. *)
Theorem C5_box_row_center_padding (self : MoonUI) (text : str) (w : Z) :
  valid_ui self ->
  (let clean := strip text in
   let inner := w - 2 in
   let pad_left := (inner - len clean) / 2 in
   let pad_right := inner - len clean - pad_left in
   exists out,
     box_row self text w (lit "center") = Ok out /\
     strip out = [BOX_V] ++ repeat SPACE (Z.to_nat pad_left) ++ clean
                         ++ repeat SPACE (Z.to_nat pad_right) ++ [BOX_V]) /\
  (exists out,
     box_row self (lit "hi") 10 (lit "center") = Ok out /\
     strip out = [BOX_V] ++ lit "   hi   " ++ [BOX_V] /\
     (8 - len (lit "hi")) / 2 = 3 /\
     8 - len (lit "hi") - (8 - len (lit "hi")) / 2 = 3 /\
     len (strip out) = 10).
Proof.
  intros Hv. split.
  - cbv zeta. apply box_row_center_strip. exact Hv.
  - destruct (box_row_center_strip self (lit "hi") 10 Hv) as (out & H & Hs).
    exists out. split; [exact H|]. rewrite Hs.
    repeat split; reflexivity.
Qed.

Lemma C5_box_row_center_padding_witness :
  valid_ui moon_ui /\
  exists out,
    box_row moon_ui (lit "hi") 10 (lit "center") = Ok out /\
    strip out = [BOX_V] ++ lit "   hi   " ++ [BOX_V] /\
    (8 - len (lit "hi")) / 2 = 3 /\
    8 - len (lit "hi") - (8 - len (lit "hi")) / 2 = 3 /\
    len (strip out) = 10.
Proof.
  assert (Hv : valid_ui moon_ui).
  { unfold valid_ui, valid_color, valid_channel. cbn. repeat split; lia. }
  split; [exact Hv|].
  exact (proj2 (C5_box_row_center_padding moon_ui [] 0 Hv)).
Defined.

(** C6, as stated, fails: [centered_pad] returns a string of spaces, which
    the callers prepend to a line; [centered_pad(60)] on a terminal of 80
    columns is not the integer 10. *)
Lemma C6_counterexample :
  centered_pad moon_ui (Ok 80) 60 <> Ok (PyInt 10).
Proof. vm_compute. discriminate. Qed.

(** C6, amended: [centered_pad(box_width)] returns a string of
    [max(floor((get_width() - box_width) / 2), 0)] spaces, the empty string
    when the terminal is narrower than the box; [centered_pad(60)] on a
    terminal of 80 columns returns ten spaces. *)
Theorem C6_centered_pad_spaces (self : MoonUI) (query : res Z)
    (box_width tw : Z) :
  get_term_width query = Ok tw ->
  centered_pad self query box_width
  = Ok (PyStr (repeat SPACE (Z.to_nat (Z.max ((tw - box_width) / 2) 0)))) /\
  len (repeat SPACE (Z.to_nat (Z.max ((tw - box_width) / 2) 0)))
  = Z.max ((tw - box_width) / 2) 0 /\
  (tw < box_width ->
   centered_pad self query box_width = Ok (PyStr [])) /\
  centered_pad self (Ok 80) 60 = Ok (PyStr (repeat SPACE 10)).
Proof.
  intros Hq. unfold centered_pad. rewrite Hq. cbn [bind].
  rewrite str_mul_repeat. split; [reflexivity|]. split; [|split].
  - rewrite len_repeat. lia.
  - intros Hlt. assert ((tw - box_width) / 2 < 0).
    { apply Z.div_lt_upper_bound; lia. }
    replace (Z.to_nat (Z.max ((tw - box_width) / 2) 0)) with O by lia.
    reflexivity.
  - reflexivity.
Qed.

Lemma C6_centered_pad_spaces_witness :
  get_term_width (Ok 80) = Ok 80 /\
  centered_pad moon_ui (Ok 80) 60
  = Ok (PyStr (repeat SPACE (Z.to_nat (Z.max ((80 - 60) / 2) 0)))).
Proof.
  assert (H : get_term_width (Ok 80) = Ok 80) by reflexivity.
  split; [exact H|].
  exact (proj1 (C6_centered_pad_spaces moon_ui (Ok 80) 60 80 H)).
Defined.

(** C7: the strip operation removes every occurrence of a complete escape
    sequence (ESC, a bracket, a run of digits and semicolons, [m]) and keeps
    every other character, in order: it computes exactly the relation
    [Stripped]; an occurrence is removed wherever it stands; a text in which
    no complete sequence occurs is returned unchanged, and so is a sequence
    left without its terminator. *)
Theorem C7_strip_removes_complete_sequences :
  (forall l out, Stripped l out <-> strip l = out) /\
  (forall a ps b, params ps -> strip (a ++ csi ps ++ b) = strip a ++ strip b) /\
  (forall l, csi_free l -> strip l = l) /\
  (forall ps, params ps -> strip (ESC :: LBRACKET :: ps) = ESC :: LBRACKET :: ps).
Proof.
  split; [|split; [|split]].
  - intros l out. split.
    + apply Stripped_strip.
    + intros <-. apply strip_Stripped.
  - apply strip_occurrence.
  - intros l. apply strip_csi_free.
  - intros ps H. apply strip_csi_free. now apply unterminated_csi_free.
Qed.

Lemma C7_strip_removes_complete_sequences_witness :
  params (lit "1;31") /\
  strip (lit "ab" ++ csi (lit "1;31") ++ lit "cd")
  = strip (lit "ab") ++ strip (lit "cd").
Proof.
  assert (H : params (lit "1;31")) by reflexivity.
  split; [exact H|].
  exact (proj1 (proj2 C7_strip_removes_complete_sequences)
           (lit "ab") (lit "1;31") (lit "cd") H).
Defined.

(** C8, as stated, fails: the count [w - 2] is not clamped before the
    repetition, and a count below [-2^63] does not fit an index: for
    [w = -2^63 + 1] the three functions raise [OverflowError] instead of
    returning the two corners. *)
Lemma C8_counterexample :
  -9223372036854775807 - 2 < 0 /\
  box_top moon_ui (-9223372036854775807) = Raise OverflowError /\
  box_mid moon_ui (-9223372036854775807) = Raise OverflowError /\
  box_bot moon_ui (-9223372036854775807) = Raise OverflowError.
Proof. repeat split; reflexivity. Qed.

(** C8, amended: for every width [w] whose count [w - 2] fits an index
    ([-2^63 <= w - 2 <= 2^63 - 1]), [box_top], [box_mid] and [box_bot] are
    the colorized line made of the left corner, the fill character repeated
    [w - 2] times and the right corner, with their own corners and the same
    fill; a negative count counts as zero, so that for [w - 2 < 0] the
    stripped line is the two corners alone.  For [w - 2 < -2^63] the
    repetition raises [OverflowError]. *)
Theorem C8_box_borders (self : MoonUI) (w : Z) :
  valid_ui self ->
  (- 2 ^ 63 <= w - 2 <= 2 ^ 63 - 1 ->
   let fill := repeat BOX_H (Z.to_nat (w - 2)) in
   (box_top self w = gradient_text self ([BOX_TL] ++ fill ++ [BOX_TR]) false /\
    box_mid self w = gradient_text self ([BOX_ML] ++ fill ++ [BOX_MR]) false /\
    box_bot self w = gradient_text self ([BOX_BL] ++ fill ++ [BOX_BR]) false) /\
   (exists top mid bot,
      box_top self w = Ok top /\ strip top = [BOX_TL] ++ fill ++ [BOX_TR] /\
      box_mid self w = Ok mid /\ strip mid = [BOX_ML] ++ fill ++ [BOX_MR] /\
      box_bot self w = Ok bot /\ strip bot = [BOX_BL] ++ fill ++ [BOX_BR] /\
      (w - 2 < 0 ->
       strip top = [BOX_TL; BOX_TR] /\ strip mid = [BOX_ML; BOX_MR] /\
       strip bot = [BOX_BL; BOX_BR]))) /\
  (w - 2 < - 2 ^ 63 ->
   box_top self w = Raise OverflowError /\
   box_mid self w = Raise OverflowError /\
   box_bot self w = Raise OverflowError).
Proof.
  intros Hv. split.
  - intros [Hlo Hhi] fill. split.
    + unfold box_top, box_mid, box_bot. rewrite !box_line_eq by assumption.
      repeat split; reflexivity.
    + destruct (box_line_strip self BOX_TL BOX_H BOX_TR w Hv Hlo)
        as (top & Ht & St).
      destruct (box_line_strip self BOX_ML BOX_H BOX_MR w Hv Hlo)
        as (mid & Hm & Sm).
      destruct (box_line_strip self BOX_BL BOX_H BOX_BR w Hv Hlo)
        as (bot & Hb & Sb).
      exists top, mid, bot. repeat (split; [assumption|]).
      intros Hneg. rewrite St, Sm, Sb.
      replace (Z.to_nat (w - 2)) with O by lia. repeat split; reflexivity.
  - intros Hbelow. unfold box_top, box_mid, box_bot, box_line.
    rewrite !str_mul_any_overflow by assumption. repeat split; reflexivity.
Qed.

Lemma C8_box_borders_witness :
  valid_ui moon_ui /\ - 2 ^ 63 <= 1 - 2 <= 2 ^ 63 - 1 /\
  exists top mid bot,
    box_top moon_ui 1 = Ok top /\
    strip top = [BOX_TL] ++ repeat BOX_H (Z.to_nat (1 - 2)) ++ [BOX_TR] /\
    box_mid moon_ui 1 = Ok mid /\
    strip mid = [BOX_ML] ++ repeat BOX_H (Z.to_nat (1 - 2)) ++ [BOX_MR] /\
    box_bot moon_ui 1 = Ok bot /\
    strip bot = [BOX_BL] ++ repeat BOX_H (Z.to_nat (1 - 2)) ++ [BOX_BR] /\
    (1 - 2 < 0 ->
     strip top = [BOX_TL; BOX_TR] /\ strip mid = [BOX_ML; BOX_MR] /\
     strip bot = [BOX_BL; BOX_BR]).
Proof.
  assert (Hv : valid_ui moon_ui).
  { unfold valid_ui, valid_color, valid_channel. cbn. repeat split; lia. }
  assert (Hw : - 2 ^ 63 <= 1 - 2 <= 2 ^ 63 - 1) by (cbn; lia).
  split; [exact Hv|]. split; [exact Hw|].
  exact (proj2 (proj1 (C8_box_borders moon_ui 1 Hv) Hw)).
Defined.

(** C9, as stated, fails: the handler is [except Exception], and an
    exception that is not an instance of [Exception] goes through it: when
    the query is interrupted ([KeyboardInterrupt]), [get_width] raises. *)
Lemma C9_counterexample :
  get_term_width (Raise KeyboardInterrupt) = Raise KeyboardInterrupt /\
  ~ (forall query, exists columns, get_term_width query = Ok columns).
Proof.
  split; [reflexivity|]. intros H.
  destruct (H (Raise KeyboardInterrupt)) as (c & Hc). discriminate.
Qed.

(** C9, amended: [get_width] returns the column count the host reports; when
    the query fails by raising an instance of [Exception] (no terminal,
    unsupported call, piped output) it returns the fallback 80 and raises
    nothing to the caller; an exception that is not an instance of
    [Exception] ([KeyboardInterrupt], [SystemExit]) is raised to the
    caller. *)
Theorem C9_get_term_width_fallback (query : res Z) :
  (forall c, query = Ok c -> get_term_width query = Ok c) /\
  (forall e, query = Raise e -> is_Exception e = true ->
             get_term_width query = Ok 80) /\
  (forall e, query = Raise e -> is_Exception e = false ->
             get_term_width query = Raise e) /\
  is_Exception OSError = true /\ is_Exception AttributeError = true /\
  is_Exception ValueError = true /\
  is_Exception KeyboardInterrupt = false /\ is_Exception SystemExit = false.
Proof.
  split; [|split; [|split]].
  - intros c ->. reflexivity.
  - intros e -> He. cbn [get_term_width]. now rewrite He.
  - intros e -> He. cbn [get_term_width]. now rewrite He.
  - repeat split; reflexivity.
Qed.

Lemma C9_get_term_width_fallback_witness :
  Raise (A:=Z) OSError = Raise OSError /\ is_Exception OSError = true /\
  get_term_width (Raise OSError) = Ok 80.
Proof.
  assert (H1 : Raise (A:=Z) OSError = Raise OSError) by reflexivity.
  assert (H2 : is_Exception OSError = true) by reflexivity.
  split; [exact H1|]. split; [exact H2|].
  exact (proj1 (proj2 (C9_get_term_width_fallback (Raise OSError)))
           OSError H1 H2).
Defined.

(** C10: with any alignment other than the exact string [center],
    [box_row] does what it does with [left]: one space on the left,
    [inner - len(clean) - 1] spaces on the right (none when that is
    negative); it returns a line, whatever the alignment is. *)
Theorem C10_box_row_other_alignment (self : MoonUI) (text : str) (w : Z)
    (align : str) :
  valid_ui self -> align <> lit "center" ->
  box_row self text w align = box_row self text w (lit "left") /\
  exists out,
    box_row self text w align = Ok out /\
    strip out =
      [BOX_V] ++ repeat SPACE (Z.to_nat (Z.max 1 0)) ++ strip text
      ++ repeat SPACE (Z.to_nat (Z.max (w - 2 - len (strip text) - 1) 0))
      ++ [BOX_V].
Proof.
  intros Hv Ha. split.
  - unfold box_row. rewrite (str_eqb_neq _ _ Ha). reflexivity.
  - destruct (box_row_left_strip self text w align Hv Ha) as (out & H & Hs).
    exists out. split; [exact H|]. rewrite Hs.
    rewrite !Z2Nat.inj_max. change (Z.to_nat 0) with O. rewrite !Nat.max_0_r.
    reflexivity.
Qed.

Lemma C10_box_row_other_alignment_witness :
  valid_ui moon_ui /\ lit "Left" <> lit "center" /\
  box_row moon_ui (lit "hi") 10 (lit "Left")
  = box_row moon_ui (lit "hi") 10 (lit "left") /\
  exists out,
    box_row moon_ui (lit "hi") 10 (lit "Left") = Ok out /\
    strip out =
      [BOX_V] ++ repeat SPACE (Z.to_nat (Z.max 1 0)) ++ strip (lit "hi")
      ++ repeat SPACE (Z.to_nat (Z.max (10 - 2 - len (strip (lit "hi")) - 1) 0))
      ++ [BOX_V].
Proof.
  assert (Hv : valid_ui moon_ui).
  { unfold valid_ui, valid_color, valid_channel. cbn. repeat split; lia. }
  assert (Ha : lit "Left" <> lit "center") by (vm_compute; discriminate).
  split; [exact Hv|]. split; [exact Ha|].
  exact (C10_box_row_other_alignment moon_ui (lit "hi") 10 (lit "Left") Hv Ha).
Defined.

(* ================================================================= *)
(** ** Facts used by the further properties *)

Lemma strip_no_esc l : (forall c, In c l -> c <> ESC) -> strip l = l.
Proof.
  induction l as [|c l IH]; intros H; [reflexivity|].
  rewrite strip_keep by (apply match_csi_head, H; now left).
  f_equal. apply IH. intros d Hd. apply H. now right.
Qed.

Lemma strip_spaces k : strip (repeat SPACE k) = repeat SPACE k.
Proof.
  apply strip_no_esc. intros c Hc. apply repeat_spec in Hc. subst. discriminate.
Qed.

Lemma strip_pad_line k line :
  boundary line -> strip (repeat SPACE k ++ line) = repeat SPACE k ++ strip line.
Proof.
  intros Hb. rewrite (strip_app_boundary line Hb k) by (rewrite repeat_length; lia).
  now rewrite strip_spaces.
Qed.

(** What [gradient_text] returns is empty or starts with ESC. *)
Lemma gradient_text_out self text use_alt :
  valid_ui self ->
  exists out, gradient_text self text use_alt = Ok out /\
              strip out = text /\ boundary out.
Proof.
  intros Hv. destruct text as [|c text].
  - exists []. split; [apply gradient_text_nil|]. split; [reflexivity|now left].
  - destruct (gradient_text_spec self (c :: text) use_alt Hv ltac:(discriminate))
      as (cols & Hrun & Hl & Hvs & _).
    eexists. split; [exact Hrun|]. split.
    + rewrite strip_render; auto.
      * rewrite strip_sgr_reset. apply app_nil_r.
      * eexists. reflexivity.
    + right. apply render_boundary. eexists. reflexivity.
Qed.

(** A pass of [strip] that changes the text removes three characters at
    least. *)
Lemma strip_shrinks : forall n l, (List.length l <= n)%nat ->
  strip l = l \/ (List.length (strip l) + 3 <= List.length l)%nat.
Proof.
  induction n as [|n IH]; intros l Hn.
  - destruct l; [now left|simpl in Hn; lia].
  - destruct l as [|c rest]; [now left|].
    rewrite strip_cons. destruct (match_csi (c :: rest)) as [r|] eqn:E.
    + right. apply match_csi_length in E. pose proof (strip_length r).
      simpl in *. lia.
    + simpl in Hn. destruct (IH rest ltac:(lia)) as [H|H].
      * left. now rewrite H.
      * right. simpl. lia.
Qed.

Lemma in_range_256 z : 0 <= z <= 255 -> In z (map Z.of_nat (seq 0 256)).
Proof.
  intros H. apply in_map_iff. exists (Z.to_nat z). split; [lia|].
  apply in_seq. lia.
Qed.

Lemma format_int_length z :
  valid_channel z -> (1 <= List.length (format_int z) <= 3)%nat.
Proof.
  intros H.
  assert (Hall : forallb (fun z => let n := List.length (format_int z) in
                                   (1 <=? n)%nat && (n <=? 3)%nat)
                         (map Z.of_nat (seq 0 256)) = true)
    by (vm_compute; reflexivity).
  rewrite forallb_forall in Hall. specialize (Hall z (in_range_256 z H)).
  cbv zeta in Hall. apply andb_true_iff in Hall as [H1 H2].
  apply Nat.leb_le in H1, H2. lia.
Qed.

Lemma sgr_rgb_length col :
  valid_color col ->
  (13 <= List.length (sgr_rgb (red col) (green col) (blue col)) <= 19)%nat.
Proof.
  intros (Hr & Hg & Hb). unfold sgr_rgb.
  pose proof (format_int_length _ Hr). pose proof (format_int_length _ Hg).
  pose proof (format_int_length _ Hb).
  rewrite !length_app. change (List.length (lit "[38;2;")) with 6%nat.
  cbn [List.length]. lia.
Qed.

Lemma render_length cols : forall text,
  Forall valid_color cols -> List.length cols = List.length text ->
  (14 * List.length text <= List.length (render cols text)
   <= 20 * List.length text)%nat.
Proof.
  induction cols as [|col cols IH]; intros text Hv Hl.
  - destruct text; [simpl; lia|discriminate].
  - destruct text as [|c text]; [discriminate|].
    inversion Hv as [|? ? Hc Hv']; subst.
    cbn [render]. rewrite !length_app. cbn [List.length].
    pose proof (sgr_rgb_length col Hc). specialize (IH text Hv' ltac:(simpl in Hl; lia)).
    lia.
Qed.

(* ================================================================= *)
(** ** Further properties of the rendering helpers *)

Lemma centering_margins tw n :
  n <= tw ->
  0 <= (tw - n) / 2 /\
  (tw - n) / 2 <= tw - n - (tw - n) / 2 <= (tw - n) / 2 + 1.
Proof.
  intros H. pose proof (Z.div_mod (tw - n) 2 ltac:(lia)).
  pose proof (Z.mod_pos_bound (tw - n) 2 ltac:(lia)). lia.
Qed.

Lemma centering_none tw n : tw <= n + 1 -> Z.to_nat ((tw - n) / 2) = O.
Proof.
  intros H. assert ((tw - n) / 2 <= 0); [|lia].
  pose proof (Z.div_mod (tw - n) 2 ltac:(lia)).
  pose proof (Z.mod_pos_bound (tw - n) 2 ltac:(lia)). lia.
Qed.

(** X1: [print_gradient_line(text, center=True)] prints
    [max((term_width - len(text)) // 2, 0)] spaces followed by the colored
    text, that is, by what [gradient_text(text, use_alt)] returns: the
    padding is not colored.  Once stripped, the line is these spaces followed
    by [text].  When the text fits, the left margin is the right margin or
    one less; when it does not, no space is printed. *)
Theorem X1_print_gradient_line_centered (self : MoonUI) (has : bool)
    (query : res Z) (text : str) (use_alt : bool) (tw : Z) :
  valid_ui self -> term_width_or_80 has query = Ok tw ->
  exists line gradient,
    gradient_text self text use_alt = Ok gradient /\
    print_gradient_line self has query text true use_alt = Ok line /\
    line = repeat SPACE (Z.to_nat ((tw - len text) / 2)) ++ gradient /\
    strip gradient = text /\
    strip line = repeat SPACE (Z.to_nat ((tw - len text) / 2)) ++ text /\
    (len text <= tw ->
     len (strip line) = (tw - len text) / 2 + len text /\
     (tw - len text) / 2 <= tw - len (strip line) <= (tw - len text) / 2 + 1) /\
    (tw <= len text + 1 -> line = gradient /\ strip line = text).
Proof.
  intros Hv Hq. unfold print_gradient_line.
  destruct (gradient_text_out self text use_alt Hv) as (out & Hout & Hs & Hb).
  rewrite Hout. cbn [bind]. rewrite Hq. cbn [bind]. rewrite str_mul_repeat.
  eexists. exists out. split; [reflexivity|]. split; [reflexivity|].
  split; [reflexivity|]. split; [exact Hs|].
  rewrite (strip_pad_line _ out Hb), Hs. split; [reflexivity|]. split.
  - intros Hfit. destruct (centering_margins tw (len text) Hfit) as (H0 & H1).
    rewrite len_app, len_repeat, Z2Nat.id by lia. lia.
  - intros Hno. rewrite centering_none by assumption. split; reflexivity.
Qed.

Lemma X1_print_gradient_line_centered_witness :
  valid_ui moon_ui /\ term_width_or_80 true (Ok 80) = Ok 80 /\
  exists line gradient,
    gradient_text moon_ui (lit "Shutdown.") false = Ok gradient /\
    print_gradient_line moon_ui true (Ok 80) (lit "Shutdown.") true false
    = Ok line /\
    line = repeat SPACE (Z.to_nat ((80 - len (lit "Shutdown.")) / 2))
           ++ gradient /\
    strip line
    = repeat SPACE (Z.to_nat ((80 - len (lit "Shutdown.")) / 2))
      ++ lit "Shutdown.".
Proof.
  assert (Hv : valid_ui moon_ui).
  { unfold valid_ui, valid_color, valid_channel. cbn. repeat split; lia. }
  assert (Hq : term_width_or_80 true (Ok 80) = Ok 80) by reflexivity.
  split; [exact Hv|]. split; [exact Hq|].
  destruct (X1_print_gradient_line_centered moon_ui true (Ok 80)
              (lit "Shutdown.") false 80 Hv Hq)
    as (line & gradient & H0 & H1 & H2 & _ & H3 & _).
  exists line, gradient. repeat (split; [assumption|]). assumption.
Defined.

(** X2: [print_gradient_line] has no handler around the terminal query: with
    [center=True] it raises whatever the query raises, also where
    [get_term_width] falls back to 80.  With [center=False] the query is not
    made and the line is printed; on a host without [get_terminal_size] the
    line is centered for 80 columns. *)
Theorem X2_print_gradient_line_query_failure (self : MoonUI) (text : str)
    (use_alt : bool) (e : exn) :
  valid_ui self ->
  print_gradient_line self true (Raise e) text true use_alt = Raise e /\
  (is_Exception e = true -> get_term_width (Raise e) = Ok 80) /\
  (exists line,
     print_gradient_line self true (Raise e) text false use_alt = Ok line /\
     strip line = text) /\
  (exists line,
     print_gradient_line self false (Raise e) text true use_alt = Ok line /\
     strip line = repeat SPACE (Z.to_nat ((80 - len text) / 2)) ++ text).
Proof.
  intros Hv. unfold print_gradient_line.
  destruct (gradient_text_out self text use_alt Hv) as (out & -> & Hs & Hb).
  cbn [bind term_width_or_80]. split; [reflexivity|]. split; [|split].
  - intros He. cbn [get_term_width]. now rewrite He.
  - exists out. split; [reflexivity|exact Hs].
  - rewrite str_mul_repeat. eexists. split; [reflexivity|].
    now rewrite (strip_pad_line _ out Hb), Hs.
Qed.

Lemma X2_print_gradient_line_query_failure_witness :
  valid_ui moon_ui /\
  print_gradient_line moon_ui true (Raise OSError) (lit "Shutdown.") true false
  = Raise OSError.
Proof.
  assert (Hv : valid_ui moon_ui).
  { unfold valid_ui, valid_color, valid_channel. cbn. repeat split; lia. }
  split; [exact Hv|].
  exact (proj1 (X2_print_gradient_line_query_failure moon_ui (lit "Shutdown.")
                  false OSError Hv)).
Defined.

(** X3: [center_text(text)] returns [max((term_width - len(text)) // 2, 0)]
    spaces.  When the text fits in the terminal, the text placed after them
    leaves a right margin equal to the left one or one more; when it does not
    fit, or fits with one column to spare, the result is the empty string. *)
Theorem X3_center_text_margins (has : bool) (query : res Z) (text : str)
    (tw : Z) :
  term_width_or_80 has query = Ok tw ->
  exists pad,
    center_text has query text = Ok pad /\
    pad = repeat SPACE (Z.to_nat ((tw - len text) / 2)) /\
    len pad = Z.max ((tw - len text) / 2) 0 /\
    (len text <= tw ->
     len pad <= tw - len text - len pad <= len pad + 1) /\
    (tw <= len text + 1 -> pad = []).
Proof.
  intros Hq. unfold center_text. rewrite Hq. cbn [bind].
  rewrite str_mul_repeat. eexists. split; [reflexivity|].
  split; [reflexivity|]. rewrite len_repeat. split; [lia|]. split.
  - intros Hfit. destruct (centering_margins tw (len text) Hfit) as (H0 & H1).
    rewrite Z2Nat.id by lia. exact H1.
  - intros Hno. now rewrite centering_none.
Qed.

Lemma X3_center_text_margins_witness :
  term_width_or_80 true (Ok 80) = Ok 80 /\
  exists pad,
    center_text true (Ok 80) (lit "Goodbye!") = Ok pad /\
    pad = repeat SPACE (Z.to_nat ((80 - len (lit "Goodbye!")) / 2)).
Proof.
  assert (Hq : term_width_or_80 true (Ok 80) = Ok 80) by reflexivity.
  split; [exact Hq|].
  destruct (X3_center_text_margins true (Ok 80) (lit "Goodbye!") 80 Hq)
    as (pad & H1 & H2 & _).
  exists pad. split; assumption.
Defined.

(** X4: [center_text] has no handler either: it raises whatever the query
    raises; the fallback to 80 columns serves only a host without
    [get_terminal_size], on which the query is not made. *)
Theorem X4_center_text_query_failure (query : res Z) (text : str) (e : exn) :
  center_text true (Raise e) text = Raise e /\
  center_text false query text
  = Ok (repeat SPACE (Z.to_nat ((80 - len text) / 2))).
Proof.
  unfold center_text. cbn [term_width_or_80 bind].
  split; [reflexivity|]. now rewrite str_mul_repeat.
Qed.

(** X5: the legacy helpers [gradient_border_top], [gradient_border_bottom]
    and [gradient_border_line] do not depend on [style]; for a width of 2 at
    least, what they return has, once stripped, exactly [width] characters:
    the corners of [box_top], [box_bot] and [box_mid] around [width - 2]
    fill characters. *)
Theorem X5_legacy_borders (self : MoonUI) (width : Z) (style style' : str) :
  valid_ui self -> 2 <= width ->
  exists top bottom line,
    gradient_border_top self width style = Ok top /\
    gradient_border_top self width style' = Ok top /\
    gradient_border_bottom self width style = Ok bottom /\
    gradient_border_bottom self width style' = Ok bottom /\
    gradient_border_line self width style = Ok line /\
    gradient_border_line self width style' = Ok line /\
    strip top = [BOX_TL] ++ repeat BOX_H (Z.to_nat (width - 2)) ++ [BOX_TR] /\
    strip bottom = [BOX_BL] ++ repeat BOX_H (Z.to_nat (width - 2)) ++ [BOX_BR] /\
    strip line = [BOX_ML] ++ repeat BOX_H (Z.to_nat (width - 2)) ++ [BOX_MR] /\
    len (strip top) = width /\ len (strip bottom) = width /\
    len (strip line) = width.
Proof.
  intros Hv Hw.
  unfold gradient_border_top, gradient_border_bottom, gradient_border_line,
    box_top, box_bot, box_mid.
  destruct (box_line_strip self BOX_TL BOX_H BOX_TR width Hv ltac:(lia))
    as (top & Ht & St).
  destruct (box_line_strip self BOX_BL BOX_H BOX_BR width Hv ltac:(lia))
    as (bot & Hb & Sb).
  destruct (box_line_strip self BOX_ML BOX_H BOX_MR width Hv ltac:(lia))
    as (mid & Hm & Sm).
  exists top, bot, mid. repeat (split; [assumption|]).
  rewrite St, Sb, Sm, !len_app, !len_repeat, !len_cons.
  change (len []) with 0. repeat split; lia.
Qed.

Lemma X5_legacy_borders_witness :
  valid_ui moon_ui /\ 2 <= 76 /\
  exists top bottom line,
    gradient_border_top moon_ui 76 (lit "double") = Ok top /\
    gradient_border_bottom moon_ui 76 (lit "double") = Ok bottom /\
    gradient_border_line moon_ui 76 (lit "double") = Ok line /\
    len (strip top) = 76 /\ len (strip bottom) = 76 /\ len (strip line) = 76.
Proof.
  assert (Hv : valid_ui moon_ui).
  { unfold valid_ui, valid_color, valid_channel. cbn. repeat split; lia. }
  assert (Hw : 2 <= 76) by lia.
  split; [exact Hv|]. split; [exact Hw|].
  destruct (X5_legacy_borders moon_ui 76 (lit "double") (lit "single") Hv Hw)
    as (top & bottom & line & H1 & _ & H3 & _ & H5 & _ & _ & _ & _ & L1 & L2 & L3).
  exists top, bottom, line. repeat (split; [assumption|]). assumption.
Defined.

(** X6: [box_row] sees its text only through the strip operation: two texts
    with the same stripped form give the same row.  So a text already
    colored by [gradient_text] gives the row of the plain text, when no
    complete escape sequence occurs in the plain text. *)
Theorem X6_box_row_ignores_colors (self : MoonUI) (T : str) (use_alt : bool)
    (w : Z) (align : str) :
  valid_ui self -> csi_free T ->
  (exists X, gradient_text self T use_alt = Ok X /\
             box_row self X w align = box_row self T w align) /\
  (forall text text', strip text = strip text' ->
                      box_row self text w align = box_row self text' w align).
Proof.
  intros Hv Hf. split.
  - destruct (strip_gradient_text self T use_alt Hv) as (X & HX & Hs).
    exists X. split; [exact HX|]. unfold box_row. rewrite Hs.
    now rewrite (proj1 (strip_csi_free T) Hf).
  - intros text text' H. unfold box_row. now rewrite H.
Qed.

Lemma X6_box_row_ignores_colors_witness :
  valid_ui moon_ui /\ csi_free (lit "hi") /\
  exists X, gradient_text moon_ui (lit "hi") true = Ok X /\
            box_row moon_ui X 10 (lit "center")
            = box_row moon_ui (lit "hi") 10 (lit "center").
Proof.
  assert (Hv : valid_ui moon_ui).
  { unfold valid_ui, valid_color, valid_channel. cbn. repeat split; lia. }
  assert (Hf : csi_free (lit "hi")).
  { apply strip_csi_free. reflexivity. }
  split; [exact Hv|]. split; [exact Hf|].
  exact (proj1 (X6_box_row_ignores_colors moon_ui (lit "hi") true 10
                  (lit "center") Hv Hf)).
Defined.

(** X7: [box_row] never truncates: a content that does not fit is kept
    whole and the line overflows the box.  With center alignment and a
    stripped content of [w - 2] characters or more, the stripped line is the
    content between the two borders; with another alignment and [w - 3]
    characters or more, it is the content after one space, between the two
    borders. *)
Theorem X7_box_row_overflow (self : MoonUI) (text : str) (w : Z)
    (align : str) :
  valid_ui self ->
  (w - 2 <= len (strip text) ->
   exists out, box_row self text w (lit "center") = Ok out /\
               strip out = [BOX_V] ++ strip text ++ [BOX_V] /\
               len (strip out) = len (strip text) + 2) /\
  (align <> lit "center" -> w - 3 <= len (strip text) ->
   exists out, box_row self text w align = Ok out /\
               strip out = [BOX_V; SPACE] ++ strip text ++ [BOX_V] /\
               len (strip out) = len (strip text) + 3).
Proof.
  intros Hv. split.
  - intros Hlong.
    destruct (box_row_center_strip self text w Hv) as (out & H & Hs).
    exists out. split; [exact H|].
    pose proof (Z.div_mod (w - 2 - len (strip text)) 2 ltac:(lia)).
    pose proof (Z.mod_pos_bound (w - 2 - len (strip text)) 2 ltac:(lia)).
    replace (Z.to_nat ((w - 2 - len (strip text)) / 2)) with O in Hs by lia.
    replace (Z.to_nat (w - 2 - len (strip text)
                       - (w - 2 - len (strip text)) / 2)) with O in Hs by lia.
    cbn [repeat app] in Hs. rewrite Hs. split; [reflexivity|].
    rewrite !len_app, !len_cons. change (len []) with 0. lia.
  - intros Ha Hlong.
    destruct (box_row_left_strip self text w align Hv Ha) as (out & H & Hs).
    exists out. split; [exact H|].
    replace (Z.to_nat (w - 2 - len (strip text) - 1)) with O in Hs by lia.
    cbn [repeat app] in Hs. rewrite Hs. split; [reflexivity|].
    rewrite !len_app, !len_cons. change (len []) with 0. lia.
Qed.

Lemma X7_box_row_overflow_witness :
  valid_ui moon_ui /\ lit "left" <> lit "center" /\
  6 - 3 <= len (strip (lit "toolongforthisbox")) /\
  exists out,
    box_row moon_ui (lit "toolongforthisbox") 6 (lit "left") = Ok out /\
    strip out = [BOX_V; SPACE] ++ strip (lit "toolongforthisbox") ++ [BOX_V] /\
    len (strip out) = len (strip (lit "toolongforthisbox")) + 3.
Proof.
  assert (Hv : valid_ui moon_ui).
  { unfold valid_ui, valid_color, valid_channel. cbn. repeat split; lia. }
  assert (Ha : lit "left" <> lit "center") by (vm_compute; discriminate).
  assert (Hl : 6 - 3 <= len (strip (lit "toolongforthisbox")))
    by (vm_compute; discriminate).
  split; [exact Hv|]. split; [exact Ha|]. split; [exact Hl|].
  exact (proj2 (X7_box_row_overflow moon_ui (lit "toolongforthisbox") 6
                  (lit "left") Hv) Ha Hl).
Defined.

(** X8: with center alignment and a content that fits, the two paddings of
    [box_row] fill the inner width exactly, and the right one is the left one
    or one more. *)
Theorem X8_box_row_center_balance (self : MoonUI) (text : str) (w : Z) :
  valid_ui self -> len (strip text) <= w - 2 ->
  exists out L R,
    box_row self text w (lit "center") = Ok out /\
    strip out = [BOX_V] ++ repeat SPACE L ++ strip text
                        ++ repeat SPACE R ++ [BOX_V] /\
    Z.of_nat L + len (strip text) + Z.of_nat R = w - 2 /\
    (L <= R <= L + 1)%nat.
Proof.
  intros Hv Hfit.
  destruct (box_row_center_strip self text w Hv) as (out & H & Hs).
  exists out. eexists. eexists. split; [exact H|]. split; [exact Hs|].
  pose proof (Z.div_mod (w - 2 - len (strip text)) 2 ltac:(lia)).
  pose proof (Z.mod_pos_bound (w - 2 - len (strip text)) 2 ltac:(lia)).
  split; lia.
Qed.

Lemma X8_box_row_center_balance_witness :
  valid_ui moon_ui /\ len (strip (lit "odd")) <= 10 - 2 /\
  exists out L R,
    box_row moon_ui (lit "odd") 10 (lit "center") = Ok out /\
    strip out = [BOX_V] ++ repeat SPACE L ++ strip (lit "odd")
                        ++ repeat SPACE R ++ [BOX_V] /\
    Z.of_nat L + len (strip (lit "odd")) + Z.of_nat R = 10 - 2 /\
    (L <= R <= L + 1)%nat.
Proof.
  assert (Hv : valid_ui moon_ui).
  { unfold valid_ui, valid_color, valid_channel. cbn. repeat split; lia. }
  assert (Hl : len (strip (lit "odd")) <= 10 - 2) by (vm_compute; discriminate).
  split; [exact Hv|]. split; [exact Hl|].
  exact (X8_box_row_center_balance moon_ui (lit "odd") 10 Hv Hl).
Defined.

(** X9: a box line prefixed with [centered_pad(W)], as the pages print it,
    is centered: once stripped it is the padding followed by the [W]
    characters of the line; when the box fits in the terminal the line fits
    too, and the right margin is the left one or one more; when the terminal
    is narrower than the box, or wider by one column, there is no padding. *)
Theorem X9_centered_box_line (self : MoonUI) (query : res Z) (tw W : Z)
    (text : str) :
  valid_ui self -> get_term_width query = Ok tw -> 2 <= W ->
  len (strip text) <= W - 2 ->
  exists pad top row,
    centered_pad self query W = Ok (PyStr pad) /\
    box_top self W = Ok top /\
    box_row self text W (lit "center") = Ok row /\
    strip (pad ++ top) = pad ++ strip top /\
    strip (pad ++ row) = pad ++ strip row /\
    len (strip (pad ++ top)) = len pad + W /\
    len (strip (pad ++ row)) = len pad + W /\
    (W <= tw ->
     len pad + W <= tw /\ len pad <= tw - W - len pad <= len pad + 1) /\
    (tw <= W + 1 -> pad = []).
Proof.
  intros Hv Hq HW Hfit. unfold centered_pad. rewrite Hq. cbn [bind].
  rewrite str_mul_repeat.
  set (k := Z.to_nat (Z.max ((tw - W) / 2) 0)).
  unfold box_top, box_line, box_row.
  rewrite str_mul_any_ok by lia. cbn [bind].
  replace (str_eqb (lit "center") (lit "center")) with true by reflexivity.
  destruct (gradient_text_out self
              ([BOX_TL] ++ str_mul [BOX_H] (W - 2) ++ [BOX_TR]) false Hv)
    as (top & Ht & St & Bt).
  match goal with
  | |- context [gradient_text self ?l false = Ok _ /\ strip _ = _ /\ _] =>
      destruct (gradient_text_out self l false Hv) as (row & Hr & Sr & Br)
  end.
  exists (repeat SPACE k), top, row.
  split; [reflexivity|]. split; [exact Ht|]. split; [exact Hr|].
  rewrite (strip_pad_line k top Bt), (strip_pad_line k row Br).
  split; [reflexivity|]. split; [reflexivity|].
  rewrite !len_app, St, Sr, !str_mul_repeat, !len_app, !len_repeat, !len_cons.
  change (len []) with 0.
  pose proof (Z.div_mod (W - 2 - len (strip text)) 2 ltac:(lia)).
  pose proof (Z.mod_pos_bound (W - 2 - len (strip text)) 2 ltac:(lia)).
  pose proof (Z.div_mod (tw - W) 2 ltac:(lia)).
  pose proof (Z.mod_pos_bound (tw - W) 2 ltac:(lia)).
  split; [lia|]. split; [lia|]. split.
  - intros Hle. unfold k. lia.
  - intros Hno. unfold k.
    replace (Z.to_nat (Z.max ((tw - W) / 2) 0)) with O by lia. reflexivity.
Qed.

Lemma X9_centered_box_line_witness :
  valid_ui moon_ui /\ get_term_width (Ok 80) = Ok 80 /\ 2 <= 68 /\
  len (strip (lit "COMMANDS")) <= 68 - 2 /\
  exists pad top row,
    centered_pad moon_ui (Ok 80) 68 = Ok (PyStr pad) /\
    box_top moon_ui 68 = Ok top /\
    box_row moon_ui (lit "COMMANDS") 68 (lit "center") = Ok row /\
    strip (pad ++ top) = pad ++ strip top /\
    strip (pad ++ row) = pad ++ strip row /\
    len (strip (pad ++ top)) = len pad + 68 /\
    len (strip (pad ++ row)) = len pad + 68.
Proof.
  assert (Hv : valid_ui moon_ui).
  { unfold valid_ui, valid_color, valid_channel. cbn. repeat split; lia. }
  assert (Hq : get_term_width (Ok 80) = Ok 80) by reflexivity.
  assert (HW : 2 <= 68) by lia.
  assert (Hl : len (strip (lit "COMMANDS")) <= 68 - 2)
    by (vm_compute; discriminate).
  split; [exact Hv|]. split; [exact Hq|]. split; [exact HW|]. split; [exact Hl|].
  destruct (X9_centered_box_line moon_ui (Ok 80) 80 68 (lit "COMMANDS")
              Hv Hq HW Hl)
    as (pad & top & row & H1 & H2 & H3 & H4 & H5 & H6 & H7 & _).
  exists pad, top, row. repeat (split; [assumption|]). assumption.
Defined.

(** X10: when the terminal query fails with an instance of [Exception],
    [centered_pad] pads as for a terminal of 80 columns; an exception that is
    not an instance of [Exception] goes through [get_term_width] and
    [centered_pad]. *)
Theorem X10_centered_pad_query_failure (self : MoonUI) (W : Z) (e : exn) :
  (is_Exception e = true ->
   centered_pad self (Raise e) W
   = Ok (PyStr (repeat SPACE (Z.to_nat ((80 - W) / 2))))) /\
  (is_Exception e = false ->
   get_term_width (Raise e) = Raise e /\
   centered_pad self (Raise e) W = Raise e).
Proof.
  unfold centered_pad. cbn [get_term_width]. split; intros ->; cbn [bind].
  - rewrite str_mul_repeat. do 3 f_equal. lia.
  - split; reflexivity.
Qed.

Lemma X10_centered_pad_query_failure_witness :
  is_Exception OSError = true /\
  centered_pad moon_ui (Raise OSError) 60
  = Ok (PyStr (repeat SPACE (Z.to_nat ((80 - 60) / 2)))).
Proof.
  assert (H : is_Exception OSError = true) by reflexivity.
  split; [exact H|].
  exact (proj1 (X10_centered_pad_query_failure moon_ui 60 OSError) H).
Defined.

(** X11: the result of [gradient_text] on a text of [n >= 1] characters has
    between [14 n + 4] and [20 n + 4] characters: every character costs a
    color-set sequence of 13 to 19 characters, and the reset sequence has
    four. *)
Theorem X11_gradient_text_size (self : MoonUI) (T : str) (use_alt : bool) :
  valid_ui self -> T <> [] ->
  exists out,
    gradient_text self T use_alt = Ok out /\
    14 * len T + 4 <= len out <= 20 * len T + 4.
Proof.
  intros Hv Hne.
  destruct (gradient_text_spec self T use_alt Hv Hne)
    as (cols & Hrun & Hl & Hvs & _).
  eexists. split; [exact Hrun|].
  pose proof (render_length cols T Hvs Hl).
  unfold len. rewrite length_app. change (List.length sgr_reset) with 4%nat.
  lia.
Qed.

Lemma X11_gradient_text_size_witness :
  valid_ui moon_ui /\ lit "AB" <> [] /\
  exists out,
    gradient_text moon_ui (lit "AB") false = Ok out /\
    14 * len (lit "AB") + 4 <= len out <= 20 * len (lit "AB") + 4.
Proof.
  assert (Hv : valid_ui moon_ui).
  { unfold valid_ui, valid_color, valid_channel. cbn. repeat split; lia. }
  assert (Hne : lit "AB" <> []) by (cbn; discriminate).
  split; [exact Hv|]. split; [exact Hne|].
  exact (X11_gradient_text_size moon_ui (lit "AB") false Hv Hne).
Defined.

(** X12: the strip operation never lengthens a text; it returns the text
    unchanged or at least three characters shorter; a text without the ESC
    character is returned unchanged. *)
Theorem X12_strip_shrinks (l : str) :
  (List.length (strip l) <= List.length l)%nat /\
  (strip l = l \/ (List.length (strip l) + 3 <= List.length l)%nat) /\
  ((forall c, In c l -> c <> ESC) -> strip l = l).
Proof.
  split; [apply strip_length|]. split.
  - apply (strip_shrinks (List.length l)). lia.
  - apply strip_no_esc.
Qed.

Lemma X12_strip_shrinks_witness :
  (forall c, In c (lit "plain [0m text") -> c <> ESC) /\
  strip (lit "plain [0m text") = lit "plain [0m text".
Proof.
  assert (H : forall c, In c (lit "plain [0m text") -> c <> ESC).
  { intros c Hc Heq. subst c. vm_compute in Hc. intuition discriminate. }
  split; [exact H|].
  exact (proj2 (proj2 (X12_strip_shrinks (lit "plain [0m text"))) H).
Defined.
